(** * Mirakurun: the in-memory programme store ([src/Mirakurun/Program.ts])

    A shallow embedding of the [Program] class: the item array, the
    debounced save timer, the load filter, the GC sweep and the identifier
    packing, followed by the properties proved about them.

    Conventions.
    - JavaScript numbers that the store handles are identifiers and epoch
      milliseconds; they are carried as [Z].  A field that can be absent in
      a persisted record is a [value] ([Undefined], [NaN] or a number).
    - Objects are compared by reference in JavaScript ([indexOf] uses
      [===]); a [ProgramItem] therefore carries the identity of its object
      in [ProgramItem.ref].
    - Every method is a computation in the monad [M]: it threads the whole
      observable state ([World]) and can raise a [TypeError], the one
      exception that property access on [undefined] would raise. *)

From Stdlib Require Import ZArith Lia String Ascii.
From stdpp Require Import base decidable option numbers list.

#[local] Open Scope Z_scope.

(** ** JavaScript values *)

Inductive value : Type :=
  | Undefined
  | NaN
  | Num (z : Z).

#[global] Instance value_eq_dec : EqDecision value.
Proof. solve_decision. Defined.

(** [a + b] on numbers; [undefined + n] and [NaN + n] are [NaN]. *)
Definition js_add (a b : value) : value :=
  match a, b with
  | Num x, Num y => Num (x + y)
  | _, _ => NaN
  end.

(** [a > b]; every comparison with [NaN] or [undefined] is [false]. *)
Definition js_gt (a b : value) : bool :=
  match a, b with
  | Num x, Num y => y <? x
  | _, _ => false
  end.

Definition js_ge (a b : value) : bool :=
  match a, b with
  | Num x, Num y => y <=? x
  | _, _ => false
  end.

Definition js_lt (a b : value) : bool :=
  match a, b with
  | Num x, Num y => x <? y
  | _, _ => false
  end.

(** [a === b] *)
Definition js_strict_eq (a b : value) : bool :=
  match a, b with
  | Num x, Num y => x =? y
  | Undefined, Undefined => true
  | _, _ => false
  end.

(** [typeof a === "undefined"] *)
Definition js_is_undefined (a : value) : bool :=
  match a with
  | Undefined => true
  | _ => false
  end.

(** [a || d] for a number [d]: [undefined], [NaN] and [0] are falsy. *)
Definition js_or (a : value) (d : Z) : Z :=
  match a with
  | Num 0 => d
  | Num z => z
  | _ => d
  end.

(** ** Data model *)

Module db.
(** The persisted record ([db.Program]); only the fields this file reads. *)
Record Program : Type := mkProgram {
  networkId : value;
  serviceId : value;
  eventId : value;
  startAt : value;
  duration : value;
}.

#[global] Instance Program_eq_dec : EqDecision Program.
Proof. solve_decision. Defined.
End db.

Module ProgramItem.
(** A [ProgramItem] object as the store sees it: [item.id], [item.data]
    and the identity [ref] of the object itself. *)
Record t : Type := mk {
  ref : nat;
  id : Z;
  data : db.Program;
}.

#[global] Instance t_eq_dec : EqDecision t.
Proof. solve_decision. Defined.
End ProgramItem.

(** Callbacks handed to [setTimeout] in this file. *)
Inductive callback : Type :=
  | SaveCb   (* () => this._save() *)
  | GcCb.    (* this._gc.bind(this) *)

#[global] Instance callback_eq_dec : EqDecision callback.
Proof. solve_decision. Defined.

Record Timer : Type := mkTimer {
  tid : nat;
  due : Z;
  cb : callback;
}.

(** The state every method runs in: the fields of the [Program] instance,
    the runtime (clock and pending timeouts) and the collaborators
    ([db], [queue], [_.config]). *)
Record World : Type := mkWorld {
  _items : list ProgramItem.t;
  _saveTimerId : option nat;
  _programGCInterval : Z;
  clock : Z;                               (* Date.now() *)
  timers : list Timer;                     (* pending timeouts *)
  timerSeq : nat;                          (* next timer handle *)
  objects : list ProgramItem.t;            (* ProgramItem objects made so far *)
  stored : list db.Program;                (* what db.loadPrograms() returns *)
  writes : list (Z * list db.Program);     (* db.savePrograms calls, oldest first *)
  queued : nat;                            (* sweeps waiting in [queue] *)
  config_programGCInterval : value;        (* _.config.server.programGCInterval *)
}.

Definition set_items (f : list ProgramItem.t → list ProgramItem.t) (w : World) : World :=
  mkWorld (f (_items w)) (_saveTimerId w) (_programGCInterval w) (clock w)
    (timers w) (timerSeq w) (objects w) (stored w) (writes w) (queued w)
    (config_programGCInterval w).

Definition set_saveTimerId (v : option nat) (w : World) : World :=
  mkWorld (_items w) v (_programGCInterval w) (clock w)
    (timers w) (timerSeq w) (objects w) (stored w) (writes w) (queued w)
    (config_programGCInterval w).

Definition set_programGCInterval (v : Z) (w : World) : World :=
  mkWorld (_items w) (_saveTimerId w) v (clock w)
    (timers w) (timerSeq w) (objects w) (stored w) (writes w) (queued w)
    (config_programGCInterval w).

Definition set_clock (v : Z) (w : World) : World :=
  mkWorld (_items w) (_saveTimerId w) (_programGCInterval w) v
    (timers w) (timerSeq w) (objects w) (stored w) (writes w) (queued w)
    (config_programGCInterval w).

Definition set_timers (f : list Timer → list Timer) (w : World) : World :=
  mkWorld (_items w) (_saveTimerId w) (_programGCInterval w) (clock w)
    (f (timers w)) (timerSeq w) (objects w) (stored w) (writes w) (queued w)
    (config_programGCInterval w).

Definition set_timerSeq (v : nat) (w : World) : World :=
  mkWorld (_items w) (_saveTimerId w) (_programGCInterval w) (clock w)
    (timers w) v (objects w) (stored w) (writes w) (queued w)
    (config_programGCInterval w).

Definition set_objects (f : list ProgramItem.t → list ProgramItem.t) (w : World) : World :=
  mkWorld (_items w) (_saveTimerId w) (_programGCInterval w) (clock w)
    (timers w) (timerSeq w) (f (objects w)) (stored w) (writes w) (queued w)
    (config_programGCInterval w).

Definition set_stored (v : list db.Program) (w : World) : World :=
  mkWorld (_items w) (_saveTimerId w) (_programGCInterval w) (clock w)
    (timers w) (timerSeq w) (objects w) v (writes w) (queued w)
    (config_programGCInterval w).

Definition set_writes (f : list (Z * list db.Program) → list (Z * list db.Program))
    (w : World) : World :=
  mkWorld (_items w) (_saveTimerId w) (_programGCInterval w) (clock w)
    (timers w) (timerSeq w) (objects w) (stored w) (f (writes w)) (queued w)
    (config_programGCInterval w).

Definition set_queued (v : nat) (w : World) : World :=
  mkWorld (_items w) (_saveTimerId w) (_programGCInterval w) (clock w)
    (timers w) (timerSeq w) (objects w) (stored w) (writes w) v
    (config_programGCInterval w).

(** ** The state-and-exception monad *)

Inductive outcome (A : Type) : Type :=
  | Ok (a : A) (w : World)
  | TypeError.
Arguments Ok {A} a w.
Arguments TypeError {A}.

Definition M (A : Type) : Type := World → outcome A.

#[global] Instance M_ret : MRet M := λ A a w, Ok a w.
#[global] Instance M_bind : MBind M := λ A B f m w,
  match m w with
  | Ok a w' => f a w'
  | TypeError => TypeError
  end.

Definition throw {A} : M A := λ _, TypeError.
Definition reads {A} (f : World → A) : M A := λ w, Ok (f w) w.
Definition modify (f : World → World) : M unit := λ w, Ok tt (f w).

(** ** Runtime primitives *)

(** The longest delay a timeout can have: [2^31 - 1] ms. *)
Definition TIMEOUT_MAX : Z := 2147483647.

(** The delay a timeout is armed with: the one asked for when it lies
    within [1, TIMEOUT_MAX], and 1 ms for every other number (zero,
    negative or too large), as the runtime's timers do. *)
Definition timeout_after (delay : Z) : Z :=
  if (1 <=? delay) && (delay <=? TIMEOUT_MAX) then delay else 1.

(** [setTimeout(cb, delay)]: a fresh handle, firing at
    [clock + timeout_after delay]. *)
Definition setTimeout (c : callback) (delay : Z) : M nat := λ w,
  let h := timerSeq w in
  Ok h (set_timerSeq (S h)
          (set_timers (λ ts, ts ++ [mkTimer h (clock w + timeout_after delay) c]) w)).

(** [clearTimeout(handle)]: drops the pending timeout with that handle;
    nothing happens for [undefined] or for a handle that already fired. *)
Definition clearTimeout (h : option nat) : M unit :=
  match h with
  | None => mret tt
  | Some n => modify (set_timers (filter (λ t, tid t ≠ n)))
  end.

(** [array.indexOf(x)] on objects: the first index holding the same
    object, [None] for [-1]. *)
Fixpoint indexOf (l : list ProgramItem.t) (x : ProgramItem.t) : option nat :=
  match l with
  | [] => None
  | y :: l' =>
      if decide (ProgramItem.ref y = ProgramItem.ref x) then Some 0%nat
      else S <$> indexOf l' x
  end.

(** ** Numbers and strings *)

(** A double that is not zero, infinite or NaN: [mant * 2 ^ expo]. *)
Record double : Type := mkDouble {
  mant : Z;
  expo : Z;
}.

(** The integer nearest to [p / q] for [q > 0], ties to the even one. *)
Definition round_half_even (p q : Z) : Z :=
  let f := p / q in
  let r := p mod q in
  if 2 * r <? q then f
  else if q <? 2 * r then f + 1
  else if Z.even f then f else f + 1.

(** [a / b] on two integers, [b > 0]: the quotient rounded to the nearest
    double (53 significant bits, ties to even).  The exponent is chosen so
    that the significand lies in [2^52, 2^53); exponent range limits play
    no part for the magnitudes this file meets. *)
Definition js_div (a b : Z) : double :=
  if a =? 0 then mkDouble 0 0
  else
    let x := Z.abs a in
    let e0 := Z.log2 x - Z.log2 b - 52 in
    let reaches e :=
      if 0 <=? e then 2 ^ 52 * b * 2 ^ e <=? x
      else 2 ^ 52 * b <=? x * 2 ^ (- e) in
    let e := if reaches e0 then e0 else e0 - 1 in
    let m :=
      if 0 <=? e then round_half_even x (b * 2 ^ e)
      else round_half_even (x * 2 ^ (- e)) b in
    mkDouble (Z.sgn a * m) e.

(** The number an integer string denotes, as a double: integers below
    [2^53] in magnitude are exact, larger ones are rounded to 53
    significant bits, ties to even. *)
Definition to_double (z : Z) : Z :=
  let x := Z.abs z in
  if x <? 2 ^ 53 then z
  else
    let e := Z.log2 x - 52 in
    Z.sgn z * (round_half_even x (2 ^ e) * 2 ^ e).

Definition digit_char (d : Z) : ascii :=
  ascii_of_nat (48 + Z.to_nat d).

Definition digit_of (c : ascii) : option Z :=
  let k := Z.of_nat (nat_of_ascii c) in
  if (48 <=? k) && (k <=? 57) then Some (k - 48) else None.

(** The decimal digits of [n ≥ 0], most significant first.  Each unit of
    [fuel] pays for one division by 10; the binary length of [n] is always
    enough. *)
Fixpoint digits_fuel (fuel : nat) (n : Z) : string :=
  match fuel with
  | O => String (digit_char (n mod 10)) EmptyString
  | S fuel' =>
      if n <? 10 then String (digit_char n) EmptyString
      else (digits_fuel fuel' (n / 10) ++ String (digit_char (n mod 10)) EmptyString)%string
  end.

Definition decimal (n : Z) : string :=
  digits_fuel (Z.to_nat (Z.log2 n)) n.

(** [String(n)] for an integer [n] (below [10^21] in magnitude, where
    JavaScript prints all the digits). *)
Definition Number_toString (n : Z) : string :=
  if n <? 0 then String "-"%char (decimal (- n)) else decimal n.

Fixpoint zeros (k : nat) : string :=
  match k with
  | O => EmptyString
  | S k' => String "0"%char (zeros k')
  end.

(** [s.slice(n)] *)
Fixpoint slice (n : nat) (s : string) : string :=
  match n, s with
  | O, _ => s
  | S n', String _ s' => slice n' s'
  | S _, EmptyString => EmptyString
  end.

(** The integer [n] for which [n / 10^f] is nearest to [|x|], the larger
    one on a tie: the digits [toFixed] prints. *)
Definition nearest_scaled (f : nat) (x : double) : Z :=
  let scaled := Z.abs (mant x) * 10 ^ Z.of_nat f in
  if 0 <=? expo x then scaled * 2 ^ expo x
  else (2 * scaled + 2 ^ (- expo x)) / 2 ^ (1 - expo x).

(** [x.toFixed(f)] for [f > 0] and [|x| < 10^21]: [nearest_scaled f x]
    printed with at least [f + 1] digits and a point before the last [f]. *)
Definition toFixed (f : nat) (x : double) : string :=
  let m := decimal (nearest_scaled f x) in
  let m := (zeros (S f - String.length m) ++ m)%string in
  let k := String.length m in
  let sign := if mant x <? 0 then "-"%string else EmptyString in
  let whole := substring 0 (k - f) m in
  let fraction := substring (k - f) f m in
  (sign ++ whole ++ "." ++ fraction)%string.

(** The digits at the head of [s], read as a number on top of [acc];
    [None] while no digit has been read. *)
Fixpoint parse_digits (s : string) (acc : option Z) : option Z :=
  match s with
  | EmptyString => acc
  | String c s' =>
      match digit_of c with
      | Some d =>
          let a := match acc with Some a => a | None => 0 end in
          parse_digits s' (Some (10 * a + d))
      | None => acc
      end
  end.

Definition is_white_space (c : ascii) : bool :=
  let k := nat_of_ascii c in
  (Nat.eqb k 32 || (Nat.leb 9 k && Nat.leb k 13))%bool.

Fixpoint skip_white_space (s : string) : string :=
  match s with
  | String c s' => if is_white_space c then skip_white_space s' else s
  | EmptyString => s
  end.

(** [parseInt(s, 10)]: leading white space, an optional sign, then the
    longest run of digits; [NaN] when there is no digit. *)
Definition parseInt (s : string) : value :=
  let s := skip_white_space s in
  let '(sign, s) :=
    match s with
    | String "-"%char s' => (-1, s')
    | String "+"%char s' => (1, s')
    | _ => (1, s)
    end in
  match parse_digits s None with
  | Some v => Num (to_double (sign * v))
  | None => NaN
  end.

(** ** The [Program] class *)

Module Program.

(** [save()] *)
Definition save : M unit :=
  h ← reads _saveTimerId;
  clearTimeout h;;
  h' ← setTimeout SaveCb 3000;
  modify (set_saveTimerId (Some h')).

(** [get(id)]: the loop, [i] the index and [n] the iterations left of
    [l - i]. *)
Fixpoint get_loop (id : Z) (i n : nat) : M (option ProgramItem.t) :=
  match n with
  | O => mret None
  | S n' =>
      its ← reads _items;
      match its !! i with
      | None => throw
      | Some it =>
          if decide (ProgramItem.id it = id) then mret (Some it)
          else get_loop id (S i) n'
      end
  end.

Definition get (id : Z) : M (option ProgramItem.t) :=
  l ← reads (λ w, length (_items w));
  get_loop id 0 l.

(** [add(item)] *)
Definition add (item : ProgramItem.t) : M unit :=
  r ← get (ProgramItem.id item);
  match r with
  | None => modify (set_items (λ its, its ++ [item]));; save
  | Some _ => mret tt
  end.

(** [remove(item)] *)
Definition remove (item : ProgramItem.t) : M unit :=
  index ← reads (λ w, indexOf (_items w) item);
  match index with
  | Some i => modify (set_items (delete i));; save
  | None => mret tt
  end.

(** [exists(id)] *)
Definition exists_ (id : Z) : M bool :=
  r ← get id;
  mret (bool_decide (r ≠ None)).

(** [findByServiceId(serviceId)]: [acc] is the local array [items]. *)
Fixpoint findByServiceId_loop (serviceId : Z) (acc : list ProgramItem.t)
    (i n : nat) : M (list ProgramItem.t) :=
  match n with
  | O => mret acc
  | S n' =>
      its ← reads _items;
      match its !! i with
      | None => throw
      | Some it =>
          if js_strict_eq (db.serviceId (ProgramItem.data it)) (Num serviceId)
          then findByServiceId_loop serviceId (acc ++ [it]) (S i) n'
          else findByServiceId_loop serviceId acc (S i) n'
      end
  end.

Definition findByServiceId (serviceId : Z) : M (list ProgramItem.t) :=
  l ← reads (λ w, length (_items w));
  findByServiceId_loop serviceId [] 0 l.

(** The condition of the [if] in [findConflicts]. *)
Definition conflicts (networkId serviceId start end_ : Z)
    (item : ProgramItem.t) : bool :=
  js_strict_eq (db.networkId (ProgramItem.data item)) (Num networkId) &&
  js_strict_eq (db.serviceId (ProgramItem.data item)) (Num serviceId) &&
  js_ge (db.startAt (ProgramItem.data item)) (Num start) &&
  js_lt (db.startAt (ProgramItem.data item)) (Num end_).

Fixpoint findConflicts_loop (networkId serviceId start end_ : Z)
    (acc : list ProgramItem.t) (i n : nat) : M (list ProgramItem.t) :=
  match n with
  | O => mret acc
  | S n' =>
      its ← reads _items;
      match its !! i with
      | None => throw
      | Some item =>
          if conflicts networkId serviceId start end_ item
          then findConflicts_loop networkId serviceId start end_ (acc ++ [item]) (S i) n'
          else findConflicts_loop networkId serviceId start end_ acc (S i) n'
      end
  end.

Definition findConflicts (networkId serviceId start end_ : Z) : M (list ProgramItem.t) :=
  l ← reads (λ w, length (_items w));
  findConflicts_loop networkId serviceId start end_ [] 0 l.

(** [_save()]: hands the full [items.map(program => program.data)] to
    [db.savePrograms]; the call is logged with the time it happened. *)
Definition _save : M unit :=
  rs ← reads (λ w, ProgramItem.data <$> _items w);
  now ← reads clock;
  modify (set_stored rs);;
  modify (set_writes (λ ws, ws ++ [(now, rs)])).

(** Modelled from the spec: [ProgramItem.remove()] is a method of the
    [ProgramItem] class, which is not under src/.  The entry's self-removal
    "calls back into the store" and "must re-enter the store's removal
    path": it is [remove] applied to the entry itself. *)
Definition ProgramItem_remove (this : ProgramItem.t) : M unit :=
  remove this.

(** [this._items.forEach(f)].  The length is read once, before the first
    call; at each index [k] the array is read again as it is then, and an
    index that is no longer in the array is skipped.  [s] carries the
    variables the callback closes over. *)
Fixpoint forEach_loop {C : Type} (f : ProgramItem.t → C → M C)
    (k n : nat) (s : C) : M C :=
  match n with
  | O => mret s
  | S n' =>
      its ← reads _items;
      match its !! k with
      | Some x => s' ← f x s; forEach_loop f (S k) n' s'
      | None => forEach_loop f (S k) n' s
      end
  end.

Definition items_forEach {C : Type} (f : ProgramItem.t → C → M C) (s : C) : M C :=
  len ← reads (λ w, length (_items w));
  forEach_loop f 0 len s.

(** The test of the [if] in the sweep: [now > startAt + duration]. *)
Definition expired (now : Z) (d : db.Program) : bool :=
  js_gt (Num now) (js_add (db.startAt d) (db.duration d)).

(** The callback of the sweep; [count] is the closed-over counter. *)
Definition gc_callback (now : Z) (program : ProgramItem.t) (count : nat) : M nat :=
  if expired now (ProgramItem.data program)
  then ProgramItem_remove program;; mret (S count)
  else mret count.

(** The task that [_gc] puts on the queue.  It returns the count it logs. *)
Definition gc_task : M nat :=
  now ← reads clock;
  count ← items_forEach (gc_callback now) 0%nat;
  interval ← reads _programGCInterval;
  setTimeout GcCb interval;;
  mret count.

(** [_gc()]: only queues the task. *)
Definition _gc : M unit :=
  n ← reads queued;
  modify (set_queued (S n)).

Section Load.
(** How a [ProgramItem] derives its [id] from the record it wraps.  The
    class is not under src/; the store only ever reads [item.id]. *)
Variable entryId : db.Program → Z.

(** Modelled from the spec: the constructor of [ProgramItem] is not
    under src/.  A record is "materialized into an entry", and an entry
    is "registered into the store via add": [new ProgramItem(data, true)]
    makes a fresh object and adds it to the store.  The specification says
    nothing of the second argument; it is carried as the call has it. *)
Definition new_ProgramItem (data : db.Program) (firstAdd : bool) : M ProgramItem.t :=
  r ← reads (λ w, length (objects w));
  let this := ProgramItem.mk r (entryId data) data in
  modify (set_objects (λ os, os ++ [this]));;
  add this;;
  mret this.

(** [db.loadPrograms().forEach(program => ...)]; the array is a fresh
    one that nothing else holds.  [dropped] is the closed-over flag. *)
Fixpoint load_forEach (now : Z) (programs : list db.Program) (dropped : bool) : M bool :=
  match programs with
  | [] => mret dropped
  | program :: rest =>
      if js_is_undefined (db.networkId program) then
        load_forEach now rest true
      else if js_gt (Num now) (js_add (db.startAt program) (db.duration program)) then
        load_forEach now rest true
      else
        new_ProgramItem program true;;
        load_forEach now rest dropped
  end.

(** [_load()] *)
Definition _load : M unit :=
  now ← reads clock;
  programs ← reads stored;
  dropped ← load_forEach now programs false;
  if dropped : bool then save else mret tt.

(** [new Program()]: the field initialisers, then the constructor body. *)
Definition constructor : M unit :=
  modify (set_items (λ _, []));;
  modify (set_saveTimerId None);;
  cfg ← reads config_programGCInterval;
  modify (set_programGCInterval (js_or cfg (1000 * 60 * 15)));;
  _load;;
  interval ← reads _programGCInterval;
  setTimeout GcCb interval;;
  mret tt.
End Load.

(** [static getProgramId(networkId, serviceId, eventId)], on integers. *)
Definition getProgramId (networkId serviceId eventId : Z) : value :=
  parseInt (Number_toString networkId
            ++ slice 2 (toFixed 5 (js_div serviceId 100000))
            ++ slice 2 (toFixed 5 (js_div eventId 100000)))%string.

End Program.

(** ** The timer runtime *)

(** The pending timeout that fires next: the earliest [due], the oldest
    among equals. *)
Fixpoint next_due (ts : list Timer) : option Timer :=
  match ts with
  | [] => None
  | t :: ts' =>
      match next_due ts' with
      | Some u => if due u <? due t then Some u else Some t
      | None => Some t
      end
  end.

(** A timeout fires: it leaves the table and its callback runs. *)
Definition fire (t : Timer) : M unit :=
  modify (set_timers (filter (λ x, tid x ≠ tid t)));;
  now ← reads clock;
  modify (set_clock (Z.max now (due t)));;
  match cb t with
  | SaveCb => Program._save
  | GcCb => Program._gc
  end.

(** Fires, in order, the timeouts that are due by [until]; [n] bounds the
    number of firings (no callback of this file arms a timeout). *)
Fixpoint run_timers (n : nat) (until : Z) : M unit :=
  match n with
  | O => mret tt
  | S n' =>
      ts ← reads timers;
      match next_due ts with
      | Some t => if due t <=? until then fire t;; run_timers n' until else mret tt
      | None => mret tt
      end
  end.

(** [dt] milliseconds pass with the program idle. *)
Definition advance (dt : Z) : M unit :=
  now ← reads clock;
  n ← reads (λ w, length (timers w));
  run_timers n (now + dt);;
  modify (set_clock (now + dt)).

(** The state before [new Program()]. *)
Definition boot (now : Z) (programs : list db.Program) (cfg : value) : World :=
  mkWorld [] None 0 now [] 0 [] programs [] 0 cfg.

(** ** Vocabulary of the statements *)

(** The first entry of [l] whose [id] is [id]. *)
Fixpoint first_with_id (id : Z) (l : list ProgramItem.t) : option ProgramItem.t :=
  match l with
  | [] => None
  | x :: l' => if decide (ProgramItem.id x = id) then Some x else first_with_id id l'
  end.

(** Some entry of [l] has the identifier [id]. *)
Definition has_id (id : Z) (l : list ProgramItem.t) : Prop :=
  ∃ x, x ∈ l ∧ ProgramItem.id x = id.

(** The object [e] is in [l] (membership by reference). *)
Definition member (e : ProgramItem.t) (l : list ProgramItem.t) : Prop :=
  ∃ x, x ∈ l ∧ ProgramItem.ref x = ProgramItem.ref e.

(** The entry's payload has the service identifier [serviceId]. *)
Definition of_service (serviceId : Z) (item : ProgramItem.t) : Prop :=
  db.serviceId (ProgramItem.data item) = Num serviceId.

#[global] Instance of_service_dec serviceId item : Decision (of_service serviceId item).
Proof. unfold of_service. apply _. Defined.

(** The conflict condition in the words of the specification: same network,
    same service, and [start ≤ startAt < end]. *)
Definition in_window (networkId serviceId start end_ : Z) (item : ProgramItem.t) : Prop :=
  db.networkId (ProgramItem.data item) = Num networkId ∧
  db.serviceId (ProgramItem.data item) = Num serviceId ∧
  match db.startAt (ProgramItem.data item) with
  | Num t => start ≤ t ∧ t < end_
  | _ => False
  end.

#[global] Instance in_window_dec networkId serviceId start end_ item :
  Decision (in_window networkId serviceId start end_ item).
Proof.
  unfold in_window.
  destruct (db.startAt (ProgramItem.data item)); apply _.
Defined.

(** No two entries of the store have the same [id]. *)
Definition unique_ids (w : World) : Prop :=
  NoDup (ProgramItem.id <$> _items w).

(** Objects are what their reference says: two entries of [l] with the
    same reference are the same entry. *)
Definition coherent (l : list ProgramItem.t) : Prop :=
  ∀ x y, x ∈ l → y ∈ l → ProgramItem.ref x = ProgramItem.ref y → x = y.

(** The entry has not expired at [now]: the test of the sweep fails. *)
Definition live (now : Z) (item : ProgramItem.t) : Prop :=
  Program.expired now (ProgramItem.data item) = false.

#[global] Instance live_dec now item : Decision (live now item).
Proof. unfold live. apply _. Defined.

(** What [save()] leaves behind when it runs in [w] and ends in [w']: the
    timeout [w] was waiting for is cancelled and a new one, due 3000 ms from
    now, is pending and remembered in [_saveTimerId]. *)
Definition debounced_save_scheduled (w w' : World) : Prop :=
  _saveTimerId w' = Some (timerSeq w) ∧
  timers w' =
    filter (λ t, Some (tid t) ≠ _saveTimerId w) (timers w)
      ++ [mkTimer (timerSeq w) (clock w + 3000) SaveCb] ∧
  timerSeq w' = S (timerSeq w) ∧
  clock w' = clock w ∧ writes w' = writes w ∧ stored w' = stored w ∧
  queued w' = queued w ∧ objects w' = objects w ∧
  _programGCInterval w' = _programGCInterval w.

(** A save is scheduled in [w], due at [t]: the handle in [_saveTimerId] is
    that of a pending timeout that runs [_save] at [t]. *)
Definition save_pending (w : World) (t : Z) : Prop :=
  ∃ h, _saveTimerId w = Some h ∧ mkTimer h t SaveCb ∈ timers w.

(** The timer table is well formed: handles are distinct and already
    issued, and the only pending timeout that runs [_save] is the one
    [_saveTimerId] remembers. *)
Definition timers_wf (w : World) : Prop :=
  NoDup (tid <$> timers w) ∧
  (∀ t, t ∈ timers w → (tid t < timerSeq w)%nat) ∧
  (∀ t, t ∈ timers w → cb t = SaveCb → _saveTimerId w = Some (tid t)).

(** A caller changes the store (by [change]) and requests a save, [gap]
    milliseconds after the previous request. *)
Definition next_request (step : Z * (list ProgramItem.t → list ProgramItem.t)) : M unit :=
  advance (fst step);;
  modify (set_items (snd step));;
  Program.save.

(** A burst of [save()] calls: a first one, then one per step. *)
Fixpoint requests (steps : list (Z * (list ProgramItem.t → list ProgramItem.t))) : M unit :=
  match steps with
  | [] => mret tt
  | step :: rest => next_request step;; requests rest
  end.

Definition save_burst (steps : list (Z * (list ProgramItem.t → list ProgramItem.t))) : M unit :=
  Program.save;; requests steps.

(** What [add] does to the array: the entry goes to the end unless its
    [id] is taken. *)
Definition register (its : list ProgramItem.t) (e : ProgramItem.t) : list ProgramItem.t :=
  match first_with_id (ProgramItem.id e) its with
  | None => its ++ [e]
  | Some _ => its
  end.

(** The record passes both tests of [_load]: [networkId] is not
    [undefined], and [now > startAt + duration] is false. *)
Definition kept_by_load (now : Z) (program : db.Program) : Prop :=
  db.networkId program ≠ Undefined ∧
  js_gt (Num now) (js_add (db.startAt program) (db.duration program)) = false.

#[global] Instance kept_by_load_dec now program : Decision (kept_by_load now program).
Proof. unfold kept_by_load. apply _. Defined.

(** The entries made from the records [rs], in order, the first one with
    the reference [base]. *)
Fixpoint entries_of (entryId : db.Program → Z) (base : nat) (rs : list db.Program)
    : list ProgramItem.t :=
  match rs with
  | [] => []
  | r :: rs' => ProgramItem.mk base (entryId r) r :: entries_of entryId (S base) rs'
  end.

(** Loading as the specification words it: a record is materialized when
    it has its identity fields and [now ≤ startAt + duration]; every other
    record is dropped; and a save is scheduled exactly when a record was
    dropped. *)
Definition has_identity_fields (program : db.Program) : Prop :=
  db.networkId program ≠ Undefined ∧
  db.serviceId program ≠ Undefined ∧
  db.eventId program ≠ Undefined.

Definition not_yet_over (now : Z) (program : db.Program) : Prop :=
  match js_add (db.startAt program) (db.duration program) with
  | Num end_ => now ≤ end_
  | _ => False
  end.

Definition claimed_kept (now : Z) (program : db.Program) : Prop :=
  has_identity_fields program ∧ not_yet_over now program.

#[global] Instance claimed_kept_dec now program : Decision (claimed_kept now program).
Proof.
  unfold claimed_kept, has_identity_fields, not_yet_over.
  destruct (js_add _ _); apply _.
Defined.

Definition load_as_claimed (entryId : db.Program → Z) (w : World) : Prop :=
  ∃ w', Program._load entryId w = Ok tt w' ∧
        objects w' = objects w
          ++ entries_of entryId (length (objects w))
               (filter (claimed_kept (clock w)) (stored w)) ∧
        ((∃ t, save_pending w' t)
         ↔ Exists (λ r, ¬ claimed_kept (clock w) r) (stored w)).

(** Registering the records [rs] one after the other, and nothing else:
    [new ProgramItem(r, true)] for each, in order. *)
Fixpoint materialize (entryId : db.Program → Z) (rs : list db.Program) : M unit :=
  match rs with
  | [] => mret tt
  | r :: rest => Program.new_ProgramItem entryId r true;; materialize entryId rest
  end.

(** [s] printed with exactly five digits, for [0 ≤ s < 100000]. *)
Definition pad5 (s : Z) : string :=
  String (digit_char (s / 10000 mod 10))
    (String (digit_char (s / 1000 mod 10))
       (String (digit_char (s / 100 mod 10))
          (String (digit_char (s / 10 mod 10))
             (String (digit_char (s mod 10)) EmptyString)))).

Fixpoint all_digits (s : string) : bool :=
  match s with
  | EmptyString => true
  | String c s' => bool_decide (digit_of c ≠ None) && all_digits s'
  end.

(** The arguments the identifier is packed from, within the bounds that
    keep the packed number below [2^53]. *)
Definition packable (networkId serviceId eventId : Z) : Prop :=
  0 < networkId ≤ 900718 ∧ 0 ≤ serviceId < 100000 ∧ 0 ≤ eventId < 100000.

(** ** Sample data *)

Definition sample_data (startAt duration : Z) : db.Program :=
  db.mkProgram (Num 1) (Num 2) (Num 3) (Num startAt) (Num duration).

Definition sample_item (ref : nat) (id startAt duration : Z) : ProgramItem.t :=
  ProgramItem.mk ref id (sample_data startAt duration).

(** A running store holding [its] at time [now], with nothing pending; its
    entries are the objects made so far. *)
Definition sample_world (its : list ProgramItem.t) (now : Z) : World :=
  mkWorld its None 900000 now [] 0 its [] [] 0 Undefined.

(** Five programmes of network 1, service 2, each 1800 s long, starting
    around the window [1000, 2000). *)
Definition window_store : World :=
  sample_world
    [sample_item 0 100 999 1800; sample_item 1 101 1000 1800;
     sample_item 2 102 1500 1800; sample_item 3 103 1999 1800;
     sample_item 4 104 2000 1800] 0.

(** Two programmes that both ended long before the clock's 100. *)
Definition two_expired : World :=
  sample_world [sample_item 0 10 0 10; sample_item 1 11 0 10] 100.

(** A way for an entry to get its [id] from its record: the packed
    identifier when the three fields are numbers, 0 otherwise. *)
Definition packed_id (program : db.Program) : Z :=
  match db.networkId program, db.serviceId program, db.eventId program with
  | Num n, Num s, Num e =>
      match Program.getProgramId n s e with
      | Num i => i
      | _ => 0
      end
  | _, _, _ => 0
  end.

(** A record with a network identifier and a duration, and nothing else. *)
Definition incomplete_record : db.Program :=
  db.mkProgram (Num 1) Undefined Undefined Undefined (Num 10).

(** The state [new Program()] starts from at time 5, with that one record
    persisted. *)
Definition incomplete_boot : World := boot 5 [incomplete_record] Undefined.

(** The self-heal example: a record without [networkId], a programme that
    is over, and a programme still to come, at time 5. *)
Definition self_heal_boot : World :=
  boot 5
    [db.mkProgram Undefined (Num 2) (Num 3) (Num 0) (Num 1000);
     db.mkProgram (Num 1) (Num 2) (Num 3) (Num 0) (Num 4);
     db.mkProgram (Num 1) (Num 2) (Num 4) (Num 0) (Num 1000)]
    Undefined.

(** ** Vocabulary of the further properties *)

(** The entries of [l] are distinct objects. *)
Definition distinct_objects (l : list ProgramItem.t) : Prop :=
  NoDup (ProgramItem.ref <$> l).

(** What one sweep at [now] leaves of the sequence [l]: an expired entry is
    deleted, and the entry that followed it is passed over. *)
Fixpoint swept (now : Z) (l : list ProgramItem.t) : list ProgramItem.t :=
  match l with
  | [] => []
  | x :: l' =>
      if Program.expired now (ProgramItem.data x) then
        match l' with
        | [] => []
        | y :: l'' => y :: swept now l''
        end
      else x :: swept now l'
  end.

(** The number of entries that sweep deletes. *)
Fixpoint swept_count (now : Z) (l : list ProgramItem.t) : nat :=
  match l with
  | [] => 0
  | x :: l' =>
      if Program.expired now (ProgramItem.data x) then
        match l' with
        | [] => 1
        | y :: l'' => S (swept_count now l'')
        end
      else swept_count now l'
  end.

(** No expired entry of [l] is directly followed by another one. *)
Fixpoint no_adjacent_expired (now : Z) (l : list ProgramItem.t) : Prop :=
  match l with
  | x :: l' =>
      match l' with
      | y :: _ =>
          ¬ (Program.expired now (ProgramItem.data x) = true ∧
             Program.expired now (ProgramItem.data y) = true)
      | [] => True
      end ∧ no_adjacent_expired now l'
  | [] => True
  end.

(** The queue runs the sweep [k] times in a row. *)
Fixpoint sweeps (k : nat) : M unit :=
  match k with
  | O => mret tt
  | S k' => Program.gc_task;; sweeps k'
  end.

(** What a user of the store can do next: ask for a save, add or remove an
    entry, let the queue run a sweep, or let time pass. *)
Inductive action : Type :=
  | DoSave
  | DoAdd (e : ProgramItem.t)
  | DoRemove (e : ProgramItem.t)
  | DoSweep
  | DoWait (dt : Z).

Definition act (a : action) : M unit :=
  match a with
  | DoSave => Program.save
  | DoAdd e => Program.add e
  | DoRemove e => Program.remove e
  | DoSweep => Program.gc_task;; mret tt
  | DoWait dt => advance dt
  end.

Fixpoint acts (l : list action) : M unit :=
  match l with
  | [] => mret tt
  | a :: l' => act a;; acts l'
  end.

(** The pending timeouts that run [_save]. *)
Definition pending_saves (w : World) : list Timer :=
  filter (λ t, cb t = SaveCb) (timers w).

(** The persisted records change only with a write, and then they are the
    records of the newest write. *)
Definition stored_follows (w w' : World) : Prop :=
  (writes w' = writes w ∧ stored w' = stored w) ∨
  (∃ ws t, writes w' = ws ++ [(t, stored w')]).

(** Two ended programmes, one still running, one ended, at time 100. *)
Definition mixed_store : World :=
  sample_world
    [sample_item 0 10 0 10; sample_item 1 11 0 10;
     sample_item 2 12 0 1000; sample_item 3 13 0 10] 100.

(** Ended and running programmes in turn, at time 100. *)
Definition alternating_store : World :=
  sample_world
    [sample_item 0 10 0 10; sample_item 1 11 0 1000;
     sample_item 2 12 0 10; sample_item 3 13 0 1000] 100.

(** Two programmes of one service, events 1 and 2, with their packed
    identifiers, at time 100. *)
Definition guide_store : World :=
  sample_world
    [ProgramItem.mk 0 10000200001
       (db.mkProgram (Num 1) (Num 2) (Num 1) (Num 0) (Num 1000));
     ProgramItem.mk 1 10000200002
       (db.mkProgram (Num 1) (Num 2) (Num 2) (Num 500) (Num 1000))] 100.

(** ** The monad: how computations run *)

Lemma bind_run {A B} (m : M A) (k : A → M B) w a w' :
  m w = Ok a w' → (m ≫= k) w = k a w'.
Proof. unfold mbind, M_bind. intros ->. reflexivity. Qed.

Lemma bind_reads {A B} (f : World → A) (k : A → M B) w :
  (reads f ≫= k) w = k (f w) w.
Proof. reflexivity. Qed.

Lemma bind_modify {B} (f : World → World) (k : unit → M B) w :
  (modify f ≫= k) w = k tt (f w).
Proof. reflexivity. Qed.

Lemma js_strict_eq_Num v z : js_strict_eq v (Num z) = true ↔ v = Num z.
Proof.
  destruct v as [| |x]; simpl; try (split; [discriminate|congruence]).
  rewrite Z.eqb_eq. split; congruence.
Qed.

(** ** Lookups and queries *)

Lemma first_with_id_None id l :
  first_with_id id l = None ↔ ¬ has_id id l.
Proof.
  unfold has_id. induction l as [|x l IH]; simpl.
  - split; [|done]. intros _ (y & Hy & _). by apply elem_of_nil in Hy.
  - destruct (decide (ProgramItem.id x = id)) as [E|E].
    + split; [discriminate|]. intros H. destruct H. exists x. split; [left|done].
    + rewrite IH. split.
      * intros H (y & Hy & Hid). apply elem_of_cons in Hy as [->|Hy]; [done|].
        apply H. eauto.
      * intros H (y & Hy & Hid). apply H. exists y. split; [by right|done].
Qed.

Lemma first_with_id_Some id l x :
  first_with_id id l = Some x → x ∈ l ∧ ProgramItem.id x = id.
Proof.
  induction l as [|y l IH]; simpl; [discriminate|].
  destruct (decide (ProgramItem.id y = id)) as [E|E].
  - intros [= ->]. split; [left|done].
  - intros H. destruct (IH H). split; [by right|done].
Qed.

Lemma get_loop_run id w n i :
  (i + n)%nat = length (_items w) →
  Program.get_loop id i n w = Ok (first_with_id id (drop i (_items w))) w.
Proof.
  revert i. induction n as [|n IH]; intros i Hlen; simpl.
  - rewrite drop_ge by lia. reflexivity.
  - rewrite bind_reads.
    destruct (_items w !! i) as [it|] eqn:Hi.
    + rewrite (drop_S _ _ _ Hi). simpl.
      destruct (decide (ProgramItem.id it = id)); [reflexivity|].
      apply IH. lia.
    + apply lookup_ge_None in Hi. lia.
Qed.

Lemma get_run id w :
  Program.get id w = Ok (first_with_id id (_items w)) w.
Proof.
  unfold Program.get. rewrite bind_reads.
  rewrite get_loop_run by reflexivity. reflexivity.
Qed.

Lemma exists_run id w :
  Program.exists_ id w = Ok (bool_decide (first_with_id id (_items w) ≠ None)) w.
Proof.
  unfold Program.exists_. rewrite (bind_run _ _ _ _ _ (get_run id w)). reflexivity.
Qed.

Lemma findByServiceId_loop_run serviceId w n i acc :
  (i + n)%nat = length (_items w) →
  Program.findByServiceId_loop serviceId acc i n w
  = Ok (acc ++ filter (of_service serviceId) (drop i (_items w))) w.
Proof.
  revert i acc. induction n as [|n IH]; intros i acc Hlen; simpl.
  - rewrite drop_ge by lia. rewrite filter_nil, app_nil_r. reflexivity.
  - rewrite bind_reads.
    destruct (_items w !! i) as [it|] eqn:Hi.
    + rewrite (drop_S _ _ _ Hi).
      destruct (js_strict_eq _ _) eqn:E.
      * apply js_strict_eq_Num in E.
        rewrite IH by lia. rewrite filter_cons_True by exact E.
        rewrite <- app_assoc. reflexivity.
      * rewrite IH by lia. rewrite filter_cons_False; [reflexivity|].
        intros HP. apply js_strict_eq_Num in HP. congruence.
    + apply lookup_ge_None in Hi. lia.
Qed.

Lemma findByServiceId_run serviceId w :
  Program.findByServiceId serviceId w
  = Ok (filter (of_service serviceId) (_items w)) w.
Proof.
  unfold Program.findByServiceId. rewrite bind_reads.
  rewrite findByServiceId_loop_run by reflexivity. reflexivity.
Qed.

Lemma conflicts_in_window networkId serviceId start end_ item :
  Program.conflicts networkId serviceId start end_ item = true
  ↔ in_window networkId serviceId start end_ item.
Proof.
  unfold Program.conflicts, in_window.
  rewrite !andb_true_iff, !js_strict_eq_Num.
  destruct (db.startAt (ProgramItem.data item)) as [| |t]; simpl.
  - split; [intros [[_ ?] _]; discriminate | intros (_ & _ & [])].
  - split; [intros [[_ ?] _]; discriminate | intros (_ & _ & [])].
  - rewrite Z.leb_le, Z.ltb_lt. tauto.
Qed.

Lemma findConflicts_loop_run networkId serviceId start end_ w n i acc :
  (i + n)%nat = length (_items w) →
  Program.findConflicts_loop networkId serviceId start end_ acc i n w
  = Ok (acc ++ filter (in_window networkId serviceId start end_) (drop i (_items w))) w.
Proof.
  revert i acc. induction n as [|n IH]; intros i acc Hlen; simpl.
  - rewrite drop_ge by lia. rewrite filter_nil, app_nil_r. reflexivity.
  - rewrite bind_reads.
    destruct (_items w !! i) as [it|] eqn:Hi.
    + rewrite (drop_S _ _ _ Hi).
      destruct (Program.conflicts _ _ _ _ it) eqn:E.
      * apply conflicts_in_window in E.
        rewrite IH by lia. rewrite filter_cons_True by exact E.
        rewrite <- app_assoc. reflexivity.
      * rewrite IH by lia. rewrite filter_cons_False; [reflexivity|].
        intros HP. apply conflicts_in_window in HP. congruence.
    + apply lookup_ge_None in Hi. lia.
Qed.

Lemma findConflicts_run networkId serviceId start end_ w :
  Program.findConflicts networkId serviceId start end_ w
  = Ok (filter (in_window networkId serviceId start end_) (_items w)) w.
Proof.
  unfold Program.findConflicts. rewrite bind_reads.
  rewrite findConflicts_loop_run by reflexivity. reflexivity.
Qed.

(** ** [save], [add] and [remove] *)

Lemma filter_all {A} (P : A → Prop) `{∀ x, Decision (P x)} (l : list A) :
  (∀ x, x ∈ l → P x) → filter P l = l.
Proof.
  induction l as [|x l IH]; intros HP; [reflexivity|].
  rewrite filter_cons_True by (apply HP; left).
  f_equal. apply IH. intros y Hy. apply HP. by right.
Qed.

Lemma save_run w :
  ∃ w', Program.save w = Ok tt w' ∧ debounced_save_scheduled w w' ∧
        _items w' = _items w.
Proof.
  unfold Program.save. rewrite bind_reads.
  destruct (_saveTimerId w) as [n|] eqn:Hn; simpl.
  - eexists. split; [reflexivity|]. unfold debounced_save_scheduled; simpl.
    rewrite Hn. repeat split; try reflexivity.
    f_equal. apply list_filter_iff. intros t. split; congruence.
  - eexists. split; [reflexivity|]. unfold debounced_save_scheduled; simpl.
    rewrite Hn. repeat split; try reflexivity.
    f_equal. symmetry. apply filter_all. done.
Qed.

Lemma add_present item w :
  has_id (ProgramItem.id item) (_items w) → Program.add item w = Ok tt w.
Proof.
  intros H. unfold Program.add.
  rewrite (bind_run _ _ _ _ _ (get_run _ w)).
  destruct (first_with_id _ _) eqn:E; [reflexivity|].
  apply first_with_id_None in E. contradiction.
Qed.

Lemma add_fresh item w :
  ¬ has_id (ProgramItem.id item) (_items w) →
  ∃ w', Program.add item w = Ok tt w' ∧
        _items w' = _items w ++ [item] ∧ debounced_save_scheduled w w'.
Proof.
  intros H. unfold Program.add.
  rewrite (bind_run _ _ _ _ _ (get_run _ w)).
  apply first_with_id_None in H. rewrite H.
  rewrite bind_modify.
  destruct (save_run (set_items (λ its, its ++ [item]) w)) as (w' & Hrun & Hs & Hi).
  exists w'. split; [exact Hrun|]. split; [exact Hi|]. exact Hs.
Qed.

Lemma indexOf_None l x : indexOf l x = None ↔ ¬ member x l.
Proof.
  unfold member. induction l as [|y l IH]; simpl.
  - split; [|done]. intros _ (z & Hz & _). by apply elem_of_nil in Hz.
  - destruct (decide (ProgramItem.ref y = ProgramItem.ref x)) as [E|E].
    + split; [discriminate|]. intros H. destruct H. exists y. split; [left|done].
    + destruct (indexOf l x) eqn:Hi; simpl.
      * split; [discriminate|]. intros H. exfalso.
        assert (Hn : ¬ ∃ z, z ∈ l ∧ ProgramItem.ref z = ProgramItem.ref x).
        { intros (z & Hz & Hr). apply H. exists z. split; [by right|done]. }
        apply IH in Hn. discriminate.
      * split; [|done]. intros _ (z & Hz & Hr).
        apply elem_of_cons in Hz as [->|Hz]; [done|].
        destruct IH as [IH _]. apply IH; eauto.
Qed.

Lemma indexOf_first l1 l2 x y :
  ProgramItem.ref y = ProgramItem.ref x → ¬ member x l1 →
  indexOf (l1 ++ y :: l2) x = Some (length l1).
Proof.
  intros Hy. induction l1 as [|z l1 IH]; intros Hm; simpl.
  - rewrite decide_True by exact Hy. reflexivity.
  - destruct (decide (ProgramItem.ref z = ProgramItem.ref x)) as [E|E].
    + destruct Hm. exists z. split; [left|done].
    + rewrite IH; [reflexivity|].
      intros (u & Hu & Hr). apply Hm. exists u. split; [by right|done].
Qed.

Lemma indexOf_Some l x i :
  indexOf l x = Some i →
  ∃ y, l !! i = Some y ∧ ProgramItem.ref y = ProgramItem.ref x.
Proof.
  revert i. induction l as [|z l IH]; intros i; simpl; [discriminate|].
  destruct (decide (ProgramItem.ref z = ProgramItem.ref x)) as [E|E].
  - intros [= <-]. exists z. done.
  - destruct (indexOf l x) as [j|]; simpl; [|discriminate].
    intros [= <-]. destruct (IH j eq_refl) as (y & Hy & Hr). exists y. done.
Qed.

Lemma delete_middle {A} (l1 l2 : list A) x :
  delete (length l1) (l1 ++ x :: l2) = l1 ++ l2.
Proof. induction l1 as [|y l1 IH]; simpl; [reflexivity|]. by rewrite IH. Qed.

Lemma remove_absent item w :
  ¬ member item (_items w) → Program.remove item w = Ok tt w.
Proof.
  intros H. unfold Program.remove. rewrite bind_reads.
  apply indexOf_None in H. rewrite H. reflexivity.
Qed.

Lemma remove_at item w i :
  indexOf (_items w) item = Some i →
  ∃ w', Program.remove item w = Ok tt w' ∧
        _items w' = delete i (_items w) ∧ debounced_save_scheduled w w'.
Proof.
  intros H. unfold Program.remove. rewrite bind_reads, H, bind_modify.
  destruct (save_run (set_items (delete i) w)) as (w' & Hrun & Hs & Hi).
  exists w'. split; [exact Hrun|]. split; [exact Hi|]. exact Hs.
Qed.

Lemma member_split e l :
  member e l →
  ∃ l1 y l2, l = l1 ++ y :: l2 ∧
             ProgramItem.ref y = ProgramItem.ref e ∧ ¬ member e l1.
Proof.
  induction l as [|x l IH]; intros (z & Hz & Hr).
  - by apply elem_of_nil in Hz.
  - destruct (decide (ProgramItem.ref x = ProgramItem.ref e)) as [E|E].
    + exists [], x, l. split; [reflexivity|]. split; [exact E|].
      intros (u & Hu & _). by apply elem_of_nil in Hu.
    + apply elem_of_cons in Hz as [->|Hz]; [done|].
      destruct IH as (l1 & y & l2 & -> & Hy & Hm); [by exists z|].
      exists (x :: l1), y, l2. split; [reflexivity|]. split; [exact Hy|].
      intros (u & Hu & Hru). apply elem_of_cons in Hu as [->|Hu]; [done|].
      apply Hm. by exists u.
Qed.

Lemma remove_present item w l1 y l2 :
  _items w = l1 ++ y :: l2 →
  ProgramItem.ref y = ProgramItem.ref item → ¬ member item l1 →
  ∃ w', Program.remove item w = Ok tt w' ∧
        _items w' = l1 ++ l2 ∧ debounced_save_scheduled w w'.
Proof.
  intros Hl Hy Hm.
  destruct (remove_at item w (length l1)) as (w' & Hrun & Hi & Hs).
  { rewrite Hl. by apply indexOf_first. }
  exists w'. split; [exact Hrun|]. split; [|exact Hs].
  rewrite Hi, Hl. apply delete_middle.
Qed.

(** ** The GC sweep *)

Lemma indexOf_of_lookup l k x :
  l !! k = Some x → ∃ i, indexOf l x = Some i.
Proof.
  intros H. destruct (indexOf l x) as [i|] eqn:E; [eauto|].
  apply indexOf_None in E. destruct E. exists x.
  split; [by eapply list_elem_of_lookup_2|done].
Qed.

Lemma length_delete_lookup {A} (l : list A) i y :
  l !! i = Some y → S (length (delete i l)) = length l.
Proof.
  intros H. rewrite length_delete by eauto.
  apply lookup_lt_Some in H. lia.
Qed.

Lemma filter_delete_False {A} (P : A → Prop) `{∀ x, Decision (P x)}
    (l : list A) i y :
  l !! i = Some y → ¬ P y → filter P (delete i l) = filter P l.
Proof.
  revert i. induction l as [|x l IH]; intros i Hi Hy; [done|].
  destruct i as [|i]; simpl in *.
  - injection Hi as ->. by rewrite filter_cons_False.
  - rewrite !filter_cons. destruct (decide (P x)); [f_equal|]; eauto.
Qed.

Lemma coherent_sublist (l1 l2 : list ProgramItem.t) :
  sublist l1 l2 → coherent l2 → coherent l1.
Proof.
  intros Hs Hc x y Hx Hy. apply Hc; eapply elem_of_sublist; eauto.
Qed.

(** One run of the loop of the sweep, from index [k] with [n] iterations
    left: it ends normally, only deletes entries, counts each deletion, and
    never deletes an entry that is still live. *)
Lemma gc_forEach_run now n :
  ∀ k count w, ∃ count' w',
    Program.forEach_loop (Program.gc_callback now) k n count w = Ok count' w' ∧
    sublist (_items w') (_items w) ∧
    (count' + length (_items w') = count + length (_items w))%nat ∧
    clock w' = clock w ∧
    _programGCInterval w' = _programGCInterval w ∧
    (coherent (_items w) →
     filter (live now) (_items w') = filter (live now) (_items w)).
Proof.
  induction n as [|n IH]; intros k count w; simpl.
  - exists count, w. done.
  - rewrite bind_reads.
    destruct (_items w !! k) as [x|] eqn:Hk; [|apply IH].
    destruct (Program.expired now (ProgramItem.data x)) eqn:Hx.
    + destruct (indexOf_of_lookup _ _ _ Hk) as [i Hi].
      destruct (remove_at x w i Hi) as (w1 & Hrun & Hit & Hs).
      destruct (indexOf_Some _ _ _ Hi) as (y & Hy & Hr).
      destruct (IH (S k) (S count) w1) as (c' & w' & Hloop & Hsub & Hcnt & Hc & Hg & Hlive).
      assert (Hcb : Program.gc_callback now x count w = Ok (S count) w1).
      { unfold Program.gc_callback, Program.ProgramItem_remove.
        rewrite Hx, (bind_run _ _ _ _ _ Hrun). reflexivity. }
      exists c', w'. split.
      { rewrite (bind_run _ _ _ _ _ Hcb). exact Hloop. }
      assert (Hsub1 : sublist (_items w1) (_items w)).
      { rewrite Hit. apply sublist_delete. }
      destruct Hs as (_ & _ & _ & Hclk & _ & _ & _ & _ & Hgi).
      split; [by etrans|]. split.
      { rewrite Hcnt, Hit. pose proof (length_delete_lookup _ _ _ Hy). lia. }
      split; [congruence|]. split; [congruence|].
      intros Hcoh. rewrite Hlive by (eapply coherent_sublist; eauto).
      rewrite Hit. apply (filter_delete_False _ _ _ y Hy).
      assert (y = x) as ->.
      { apply Hcoh; [by eapply list_elem_of_lookup_2 ..|done]. }
      unfold live. rewrite Hx. done.
    + assert (Hcb : Program.gc_callback now x count w = Ok count w).
      { unfold Program.gc_callback. rewrite Hx. reflexivity. }
      destruct (IH (S k) count w) as (c' & w' & Hloop & Hrest).
      exists c', w'. split; [|exact Hrest].
      rewrite (bind_run _ _ _ _ _ Hcb). exact Hloop.
Qed.

(** What the sweep does guarantee: it ends normally, it only deletes
    entries, the count it reports is the number of entries deleted, and
    (objects being coherent) no live entry is deleted. *)
Lemma gc_task_run w :
  ∃ count w',
    Program.gc_task w = Ok count w' ∧
    sublist (_items w') (_items w) ∧
    (count + length (_items w') = length (_items w))%nat ∧
    (coherent (_items w) →
     filter (live (clock w)) (_items w') = filter (live (clock w)) (_items w)).
Proof.
  destruct (gc_forEach_run (clock w) (length (_items w)) 0 0 w)
    as (c & w1 & Hloop & Hsub & Hcnt & _ & _ & Hlive).
  assert (Hfor : Program.items_forEach (Program.gc_callback (clock w)) 0%nat w
                 = Ok c w1).
  { unfold Program.items_forEach. rewrite bind_reads. exact Hloop. }
  unfold Program.gc_task. rewrite bind_reads.
  exists c. eexists. split.
  { rewrite (bind_run _ _ _ _ _ Hfor), bind_reads. reflexivity. }
  simpl. split; [exact Hsub|]. split; [lia|exact Hlive].
Qed.

(** ** Loading *)

Lemma register_run item w :
  ∃ w', Program.add item w = Ok tt w' ∧
        _items w' = register (_items w) item ∧
        clock w' = clock w ∧ stored w' = stored w ∧ objects w' = objects w ∧
        writes w' = writes w.
Proof.
  unfold register.
  destruct (first_with_id (ProgramItem.id item) (_items w)) eqn:E.
  - exists w. split; [|done]. apply add_present.
    apply first_with_id_Some in E. exists t. done.
  - apply first_with_id_None in E.
    destruct (add_fresh item w E) as (w' & Hrun & Hi & Hs).
    destruct Hs as (_ & _ & _ & Hc & Hw & Hst & _ & Ho & _).
    exists w'. done.
Qed.

Lemma register_unique its e :
  NoDup (ProgramItem.id <$> its) → NoDup (ProgramItem.id <$> register its e).
Proof.
  intros H. unfold register.
  destruct (first_with_id (ProgramItem.id e) its) eqn:E; [exact H|].
  apply first_with_id_None in E.
  rewrite fmap_app. apply NoDup_app. split; [exact H|]. split.
  - intros i Hi Hi'. apply list_elem_of_singleton in Hi'. subst i.
    apply list_elem_of_fmap in Hi as (x & Hx & Hin). apply E. exists x. done.
  - apply NoDup_singleton.
Qed.

Lemma foldl_register_unique es its :
  NoDup (ProgramItem.id <$> its) →
  NoDup (ProgramItem.id <$> foldl register its es).
Proof.
  revert its. induction es as [|e es IH]; intros its H; simpl; [exact H|].
  apply IH. by apply register_unique.
Qed.

Section LoadFacts.
Variable entryId : db.Program → Z.

Lemma new_ProgramItem_run data firstAdd w :
  let this := ProgramItem.mk (length (objects w)) (entryId data) data in
  ∃ w', Program.new_ProgramItem entryId data firstAdd w = Ok this w' ∧
        objects w' = objects w ++ [this] ∧
        _items w' = register (_items w) this ∧
        clock w' = clock w ∧ stored w' = stored w ∧ writes w' = writes w.
Proof.
  intros this. unfold Program.new_ProgramItem.
  rewrite bind_reads, bind_modify. fold this.
  destruct (register_run this (set_objects (λ os, os ++ [this]) w))
    as (w' & Hrun & Hi & Hc & Hs & Ho & Hw).
  exists w'. rewrite (bind_run _ _ _ _ _ Hrun). done.
Qed.

Lemma load_forEach_run now programs :
  ∀ dropped w, ∃ w',
    Program.load_forEach entryId now programs dropped w
      = Ok (dropped || bool_decide (Exists (λ r, ¬ kept_by_load now r) programs)) w' ∧
    objects w' = objects w
      ++ entries_of entryId (length (objects w)) (filter (kept_by_load now) programs) ∧
    _items w' = foldl register (_items w)
      (entries_of entryId (length (objects w)) (filter (kept_by_load now) programs)) ∧
    clock w' = clock w ∧ stored w' = stored w ∧ writes w' = writes w.
Proof.
  induction programs as [|r rs IH]; intros dropped w; cbn [Program.load_forEach].
  - exists w. rewrite bool_decide_eq_false_2 by (by intros ?%Exists_nil).
    cbn [filter list_filter entries_of foldl].
    rewrite orb_false_r, app_nil_r. done.
  - destruct (js_is_undefined (db.networkId r)) eqn:Hu.
    { assert (Hk : ¬ kept_by_load now r).
      { intros [Hn _]. destruct (db.networkId r); done. }
      destruct (IH true w) as (w' & Hrun & Hrest).
      exists w'. rewrite filter_cons_False by exact Hk.
      rewrite bool_decide_eq_true_2 by (by left).
      rewrite orb_true_r. split; [exact Hrun|exact Hrest]. }
    destruct (js_gt (Num now) _) eqn:Hg.
    { assert (Hk : ¬ kept_by_load now r).
      { intros [_ Hn]. congruence. }
      destruct (IH true w) as (w' & Hrun & Hrest).
      exists w'. rewrite filter_cons_False by exact Hk.
      rewrite bool_decide_eq_true_2 by (by left).
      rewrite orb_true_r. split; [exact Hrun|exact Hrest]. }
    assert (Hk : kept_by_load now r).
    { split; [|exact Hg]. intros E. rewrite E in Hu. discriminate. }
    destruct (new_ProgramItem_run r true w) as (w1 & Hnew & Ho & Hi & Hc & Hs & Hw).
    destruct (IH dropped w1) as (w' & Hrun & Ho' & Hi' & Hc' & Hs' & Hw').
    exists w'. rewrite (bind_run _ _ _ _ _ Hnew), Hrun.
    rewrite filter_cons_True by exact Hk. simpl.
    rewrite Ho', Hi', Ho, Hi, length_app, <- app_assoc. simpl.
    replace (length (objects w) + 1)%nat with (S (length (objects w))) by lia.
    split.
    { do 2 f_equal. apply bool_decide_ext. rewrite Exists_cons. tauto. }
    split; [reflexivity|]. split; [reflexivity|]. repeat split; congruence.
Qed.

Lemma load_run w :
  ∃ w', Program._load entryId w = Ok tt w' ∧
    objects w' = objects w
      ++ entries_of entryId (length (objects w))
           (filter (kept_by_load (clock w)) (stored w)) ∧
    _items w' = foldl register (_items w)
      (entries_of entryId (length (objects w))
         (filter (kept_by_load (clock w)) (stored w))) ∧
    (Exists (λ r, ¬ kept_by_load (clock w) r) (stored w) →
     save_pending w' (clock w + 3000)).
Proof.
  unfold Program._load. rewrite !bind_reads.
  destruct (load_forEach_run (clock w) (stored w) false w)
    as (w1 & Hrun & Ho & Hi & Hc & Hs & Hw).
  rewrite (bind_run _ _ _ _ _ Hrun). simpl.
  destruct (bool_decide _) eqn:Hd.
  - destruct (save_run w1) as (w' & Hsave & Hsched & Hi').
    exists w'. split; [exact Hsave|].
    destruct Hsched as (Hid & Ht & _ & _ & _ & _ & _ & Ho' & _).
    split; [congruence|]. split; [congruence|].
    intros _. exists (timerSeq w1). split; [exact Hid|].
    rewrite Ht, Hc. apply elem_of_app. right. left.
  - exists w1. split; [reflexivity|]. split; [exact Ho|]. split; [exact Hi|].
    intros HE. apply bool_decide_eq_false in Hd. contradiction.
Qed.

Lemma load_forEach_materialize now programs :
  ∀ dropped w b w',
    Program.load_forEach entryId now programs dropped w = Ok b w' →
    materialize entryId (filter (kept_by_load now) programs) w = Ok tt w'.
Proof.
  induction programs as [|r rs IH]; intros dropped w b w';
    cbn [Program.load_forEach].
  - intros H. injection H as _ <-. reflexivity.
  - destruct (js_is_undefined (db.networkId r)) eqn:Hu.
    { assert (Hk : ¬ kept_by_load now r).
      { intros [Hn _]. destruct (db.networkId r); done. }
      rewrite filter_cons_False by exact Hk. apply IH. }
    destruct (js_gt (Num now) _) eqn:Hg.
    { assert (Hk : ¬ kept_by_load now r).
      { intros [_ Hn]. congruence. }
      rewrite filter_cons_False by exact Hk. apply IH. }
    assert (Hk : kept_by_load now r).
    { split; [|exact Hg]. intros E. rewrite E in Hu. discriminate. }
    rewrite filter_cons_True by exact Hk. cbn [materialize].
    destruct (new_ProgramItem_run r true w) as (w1 & Hnew & _).
    rewrite !(bind_run _ _ _ _ _ Hnew). apply IH.
Qed.

(** [_load] is the registrations of the records it keeps, followed by one
    call of [save] exactly when a record was dropped. *)
Lemma load_then_save w w' :
  Program._load entryId w = Ok tt w' →
  (Exists (λ r, ¬ kept_by_load (clock w) r) (stored w) →
   ∃ w1, materialize entryId (filter (kept_by_load (clock w)) (stored w)) w
           = Ok tt w1 ∧
         Program.save w1 = Ok tt w') ∧
  (Forall (kept_by_load (clock w)) (stored w) →
   materialize entryId (stored w) w = Ok tt w').
Proof.
  unfold Program._load. rewrite !bind_reads.
  destruct (load_forEach_run (clock w) (stored w) false w) as (w1 & Hrun & _).
  pose proof (load_forEach_materialize _ _ _ _ _ _ Hrun) as Hm.
  rewrite (bind_run _ _ _ _ _ Hrun). simpl.
  destruct (bool_decide _) eqn:Hd; intros H.
  - split.
    + intros _. by exists w1.
    + intros Hall. apply bool_decide_eq_true in Hd.
      apply Exists_exists in Hd as (r & Hr & Hnk).
      destruct Hnk. by eapply Forall_forall.
  - injection H as <-. apply bool_decide_eq_false in Hd. split; [done|].
    intros Hall. by rewrite filter_all in Hm by (by apply Forall_forall).
Qed.

End LoadFacts.

(** ** Timers and the debounce *)

Lemma next_due_None ts : next_due ts = None → ts = [].
Proof.
  destruct ts as [|t ts]; [done|]. simpl.
  destruct (next_due ts) as [u|]; [|discriminate].
  destruct (due u <? due t); discriminate.
Qed.

Lemma next_due_Some ts t :
  next_due ts = Some t → t ∈ ts ∧ ∀ u, u ∈ ts → due t ≤ due u.
Proof.
  revert t. induction ts as [|x ts IH]; intros t; simpl; [discriminate|].
  destruct (next_due ts) as [u|] eqn:E.
  - destruct (IH u eq_refl) as [Hin Hmin].
    destruct (due u <? due x) eqn:Hlt; intros [= <-].
    + apply Z.ltb_lt in Hlt. split; [by right|].
      intros v [->|Hv]%elem_of_cons; [lia|by apply Hmin].
    + apply Z.ltb_ge in Hlt. split; [left|].
      intros v [->|Hv]%elem_of_cons; [lia|]. specialize (Hmin v Hv). lia.
  - apply next_due_None in E. subst ts. intros [= <-]. split; [left|].
    intros v [->|Hv]%elem_of_cons; [lia|]. by apply elem_of_nil in Hv.
Qed.

Lemma fire_gc t w :
  cb t = GcCb →
  fire t w = Ok tt (set_queued (S (queued w))
                      (set_clock (Z.max (clock w) (due t))
                         (set_timers (filter (λ x, tid x ≠ tid t)) w))).
Proof. intros H. unfold fire. rewrite H. reflexivity. Qed.

Lemma fire_save t w :
  cb t = SaveCb →
  fire t w = Ok tt
    (set_writes (λ ws, ws ++ [(Z.max (clock w) (due t), ProgramItem.data <$> _items w)])
       (set_stored (ProgramItem.data <$> _items w)
          (set_clock (Z.max (clock w) (due t))
             (set_timers (filter (λ x, tid x ≠ tid t)) w)))).
Proof. intros H. unfold fire. rewrite H. reflexivity. Qed.

Lemma same_handle_same_timer (ts : list Timer) t u :
  NoDup (tid <$> ts) → t ∈ ts → u ∈ ts → tid t = tid u → t = u.
Proof.
  induction ts as [|x ts IH]; intros Hnd Ht Hu Heq.
  - by apply elem_of_nil in Ht.
  - rewrite fmap_cons in Hnd. apply NoDup_cons in Hnd as [Hx Hnd].
    apply elem_of_cons in Ht as [->|Ht]; apply elem_of_cons in Hu as [->|Hu].
    + reflexivity.
    + destruct Hx. rewrite Heq. by apply list_elem_of_fmap_2.
    + destruct Hx. rewrite <- Heq. by apply list_elem_of_fmap_2.
    + by apply IH.
Qed.

Lemma NoDup_handles_sublist (ts ts' : list Timer) :
  sublist ts' ts → NoDup (tid <$> ts) → NoDup (tid <$> ts').
Proof.
  intros Hs Hnd. eapply sublist_NoDup; [exact Hnd|]. by apply fmap_sublist.
Qed.

(** Running the due timeouts when no save is due: no write happens, the
    store is untouched and the pending save stays pending. *)
Lemma run_timers_quiet until n :
  ∀ w,
    NoDup (tid <$> timers w) →
    (∀ t, t ∈ timers w → cb t = SaveCb → until < due t) →
    ∃ w', run_timers n until w = Ok tt w' ∧
          sublist (timers w') (timers w) ∧
          (∀ t, t ∈ timers w → cb t = SaveCb → t ∈ timers w') ∧
          writes w' = writes w ∧ _items w' = _items w ∧
          _saveTimerId w' = _saveTimerId w ∧ timerSeq w' = timerSeq w.
Proof.
  induction n as [|n IH]; intros w Hnd Hlate; simpl.
  - exists w. done.
  - rewrite bind_reads.
    destruct (next_due (timers w)) as [t|] eqn:Hnext; [|exists w; done].
    destruct (due t <=? until) eqn:Hdue; [|exists w; done].
    apply Z.leb_le in Hdue.
    destruct (next_due_Some _ _ Hnext) as [Hin _].
    assert (Hcb : cb t = GcCb).
    { destruct (cb t) eqn:E; [|done]. specialize (Hlate t Hin E). lia. }
    rewrite (bind_run _ _ _ _ _ (fire_gc t w Hcb)).
    set (w1 := set_queued _ _).
    assert (Hsub : sublist (timers w1) (timers w)) by apply sublist_filter.
    destruct (IH w1) as (w' & Hrun & Hsub' & Hkeep & Hw & Hi & Hs & Hq).
    { by eapply NoDup_handles_sublist. }
    { intros u Hu. apply Hlate. by eapply elem_of_sublist. }
    exists w'. split; [exact Hrun|]. split; [by etrans|]. split; [|done].
    intros u Hu Hcu. apply Hkeep; [|exact Hcu].
    apply list_elem_of_filter. split; [|exact Hu].
    intros Heq. assert (u = t) by (by eapply same_handle_same_timer).
    congruence.
Qed.

(** Running the due timeouts when the one pending save is due: exactly one
    write happens, at the save's due time, with the store as it is. *)
Lemma run_timers_fires until n :
  ∀ w s,
    NoDup (tid <$> timers w) →
    s ∈ timers w → cb s = SaveCb →
    (∀ t, t ∈ timers w → cb t = SaveCb → t = s) →
    clock w ≤ due s → due s ≤ until →
    (length (timers w) ≤ n)%nat →
    ∃ w', run_timers n until w = Ok tt w' ∧
          writes w' = writes w ++ [(due s, ProgramItem.data <$> _items w)] ∧
          _items w' = _items w.
Proof.
  induction n as [|n IH]; intros w s Hnd Hs Hcs Honly Hclk Hdue Hlen.
  - destruct (timers w); [by apply elem_of_nil in Hs|simpl in Hlen; lia].
  - simpl. rewrite bind_reads.
    destruct (next_due (timers w)) as [t|] eqn:Hnext.
    2:{ apply next_due_None in Hnext. rewrite Hnext in Hs.
        by apply elem_of_nil in Hs. }
    destruct (next_due_Some _ _ Hnext) as [Hin Hmin].
    pose proof (Hmin s Hs) as Hts.
    rewrite (proj2 (Z.leb_le (due t) until)) by lia.
    destruct (cb t) eqn:Hcb.
    + assert (t = s) as -> by (by apply Honly).
      rewrite (bind_run _ _ _ _ _ (fire_save s w Hcb)).
      set (w1 := set_writes _ _).
      destruct (run_timers_quiet until n w1) as (w' & Hrun & _ & _ & Hw & Hi & _).
      { eapply NoDup_handles_sublist; [|exact Hnd]. apply sublist_filter. }
      { intros u [Hne Hu]%list_elem_of_filter Hcu.
        rewrite (Honly u Hu Hcu) in Hne. done. }
      exists w'. split; [exact Hrun|]. rewrite Hw, Hi. simpl.
      rewrite Z.max_r by exact Hclk. done.
    + rewrite (bind_run _ _ _ _ _ (fire_gc t w Hcb)).
      set (w1 := set_queued _ _).
      assert (Hne : tid s ≠ tid t).
      { intros Heq. assert (s = t) by (by eapply same_handle_same_timer).
        congruence. }
      destruct (IH w1 s) as (w' & Hrun & Hw & Hi).
      { eapply NoDup_handles_sublist; [|exact Hnd]. apply sublist_filter. }
      { apply list_elem_of_filter. done. }
      { exact Hcs. }
      { intros u [_ Hu]%list_elem_of_filter. by apply Honly. }
      { simpl. lia. }
      { exact Hdue. }
      { simpl. pose proof (length_filter_lt (λ x, tid x ≠ tid t) (timers w) t Hin).
        simpl in *. lia. }
      exists w'. split; [exact Hrun|]. rewrite Hw, Hi. done.
Qed.

(** *** The timer table stays well formed *)

Lemma scheduled_wf w w' :
  timers_wf w → debounced_save_scheduled w w' → timers_wf w'.
Proof.
  intros (Hnd & Hlt & Hsave) (Hid & Ht & Hseq & _).
  assert (Hsub : sublist (filter (λ t, Some (tid t) ≠ _saveTimerId w) (timers w))
                         (timers w)) by apply sublist_filter.
  unfold timers_wf. rewrite Ht, Hseq, Hid. split; [|split].
  - rewrite fmap_app. apply NoDup_app. split; [|split].
    + by eapply NoDup_handles_sublist.
    + intros h Hh Hh'. apply list_elem_of_singleton in Hh'. simpl in Hh'. subst h.
      apply list_elem_of_fmap in Hh as (t & Heq & Hin).
      apply (elem_of_sublist _ _ _ Hin) in Hsub. specialize (Hlt t Hsub). lia.
    + apply NoDup_singleton.
  - intros t [Hin| ->%list_elem_of_singleton]%elem_of_app; [|simpl; lia].
    apply (elem_of_sublist _ _ _ Hin) in Hsub. specialize (Hlt t Hsub). lia.
  - intros t [Hin| ->%list_elem_of_singleton]%elem_of_app Hcb; [|done].
    apply list_elem_of_filter in Hin as [Hne Hin].
    rewrite (Hsave t Hin Hcb) in Hne. done.
Qed.

Lemma add_wf item w :
  timers_wf w → ∃ w', Program.add item w = Ok tt w' ∧ timers_wf w'.
Proof.
  intros Hwf.
  destruct (first_with_id (ProgramItem.id item) (_items w)) as [x|] eqn:E.
  - exists w. split; [|exact Hwf]. apply add_present.
    apply first_with_id_Some in E. by exists x.
  - apply first_with_id_None in E.
    destruct (add_fresh item w E) as (w' & Hrun & _ & Hs).
    exists w'. split; [exact Hrun|]. by eapply scheduled_wf.
Qed.

Lemma remove_wf item w :
  timers_wf w → ∃ w', Program.remove item w = Ok tt w' ∧ timers_wf w'.
Proof.
  intros Hwf. destruct (indexOf (_items w) item) as [i|] eqn:E.
  - destruct (remove_at item w i E) as (w' & Hrun & _ & Hs).
    exists w'. split; [exact Hrun|]. by eapply scheduled_wf.
  - exists w. split; [|exact Hwf]. apply remove_absent. by apply indexOf_None.
Qed.

Lemma setTimeout_gc_wf delay w :
  timers_wf w →
  ∃ h w', setTimeout GcCb delay w = Ok h w' ∧ timers_wf w' ∧
          _items w' = _items w.
Proof.
  intros (Hnd & Hlt & Hsave). eexists _, _. split; [reflexivity|].
  split; [|reflexivity]. unfold timers_wf. simpl. split; [|split].
  - rewrite fmap_app. apply NoDup_app. split; [exact Hnd|]. split.
    + intros h Hh Hh'. apply list_elem_of_singleton in Hh'. simpl in Hh'. subst h.
      apply list_elem_of_fmap in Hh as (t & Heq & Hin). specialize (Hlt t Hin). lia.
    + apply NoDup_singleton.
  - intros t [Hin| ->%list_elem_of_singleton]%elem_of_app; [|simpl; lia].
    specialize (Hlt t Hin). lia.
  - intros t [Hin| ->%list_elem_of_singleton]%elem_of_app Hcb; [|done].
    by apply Hsave.
Qed.

Lemma gc_forEach_wf now n :
  ∀ k count w count' w',
    timers_wf w →
    Program.forEach_loop (Program.gc_callback now) k n count w = Ok count' w' →
    timers_wf w'.
Proof.
  induction n as [|n IH]; intros k count w count' w' Hwf; simpl.
  - intros [= _ <-]. exact Hwf.
  - rewrite bind_reads.
    destruct (_items w !! k) as [x|] eqn:Hk; [|by apply IH].
    destruct (Program.expired now (ProgramItem.data x)) eqn:Hx.
    + destruct (remove_wf x w Hwf) as (w1 & Hrun & Hwf1).
      assert (Hcb : Program.gc_callback now x count w = Ok (S count) w1).
      { unfold Program.gc_callback, Program.ProgramItem_remove.
        rewrite Hx, (bind_run _ _ _ _ _ Hrun). reflexivity. }
      rewrite (bind_run _ _ _ _ _ Hcb). by apply IH.
    + assert (Hcb : Program.gc_callback now x count w = Ok count w).
      { unfold Program.gc_callback. rewrite Hx. reflexivity. }
      rewrite (bind_run _ _ _ _ _ Hcb). by apply IH.
Qed.

Lemma gc_task_wf w :
  timers_wf w → ∃ count w', Program.gc_task w = Ok count w' ∧ timers_wf w'.
Proof.
  intros Hwf.
  destruct (gc_forEach_run (clock w) (length (_items w)) 0 0 w)
    as (c & w1 & Hloop & _).
  pose proof (gc_forEach_wf _ _ _ _ _ _ _ Hwf Hloop) as Hwf1.
  assert (Hfor : Program.items_forEach (Program.gc_callback (clock w)) 0%nat w
                 = Ok c w1).
  { unfold Program.items_forEach. rewrite bind_reads. exact Hloop. }
  destruct (setTimeout_gc_wf (_programGCInterval w1) w1 Hwf1)
    as (h & w2 & Harm & Hwf2 & _).
  exists c, w2. split; [|exact Hwf2].
  unfold Program.gc_task.
  rewrite bind_reads, (bind_run _ _ _ _ _ Hfor), bind_reads.
  rewrite (bind_run _ _ _ _ _ Harm). reflexivity.
Qed.

Lemma load_forEach_wf entryId now programs :
  ∀ dropped w dropped' w',
    timers_wf w →
    Program.load_forEach entryId now programs dropped w = Ok dropped' w' →
    timers_wf w'.
Proof.
  induction programs as [|r rs IH]; intros dropped w dropped' w' Hwf;
    cbn [Program.load_forEach].
  - intros [= _ <-]. exact Hwf.
  - destruct (js_is_undefined _); [by apply IH|].
    destruct (js_gt _ _); [by apply IH|].
    set (this := ProgramItem.mk (length (objects w)) (entryId r) r).
    destruct (add_wf this (set_objects (λ os, os ++ [this]) w) Hwf)
      as (w1 & Hrun & Hwf1).
    assert (Hnew : Program.new_ProgramItem entryId r true w = Ok this w1).
    { unfold Program.new_ProgramItem. rewrite bind_reads, bind_modify.
      fold this. rewrite (bind_run _ _ _ _ _ Hrun). reflexivity. }
    rewrite (bind_run _ _ _ _ _ Hnew). by apply IH.
Qed.

Lemma load_wf entryId w :
  timers_wf w → ∃ w', Program._load entryId w = Ok tt w' ∧ timers_wf w'.
Proof.
  intros Hwf.
  destruct (load_forEach_run entryId (clock w) (stored w) false w)
    as (w1 & Hrun & _).
  pose proof (load_forEach_wf _ _ _ _ _ _ _ Hwf Hrun) as Hwf1.
  unfold Program._load. rewrite !bind_reads, (bind_run _ _ _ _ _ Hrun).
  destruct (_ || _).
  - destruct (save_run w1) as (w' & Hsave & Hs & _).
    exists w'. split; [exact Hsave|]. by eapply scheduled_wf.
  - exists w1. done.
Qed.

Lemma fire_wf t w :
  timers_wf w → ∃ w', fire t w = Ok tt w' ∧ timers_wf w'.
Proof.
  intros (Hnd & Hlt & Hsave).
  assert (Hsub : sublist (filter (λ x, tid x ≠ tid t) (timers w)) (timers w))
    by apply sublist_filter.
  assert (Hwf' : ∀ w', timers w' = filter (λ x, tid x ≠ tid t) (timers w) →
                       timerSeq w' = timerSeq w →
                       _saveTimerId w' = _saveTimerId w → timers_wf w').
  { intros w' Ht Hq Hs. unfold timers_wf. rewrite Ht, Hq, Hs. split; [|split].
    - by eapply NoDup_handles_sublist.
    - intros u Hu. apply Hlt. by eapply elem_of_sublist.
    - intros u Hu. apply Hsave. by eapply elem_of_sublist. }
  destruct (cb t) eqn:Hcb.
  - eexists. split; [by apply fire_save|]. by apply Hwf'.
  - eexists. split; [by apply fire_gc|]. by apply Hwf'.
Qed.

Lemma run_timers_wf until n :
  ∀ w, timers_wf w → ∃ w', run_timers n until w = Ok tt w' ∧ timers_wf w'.
Proof.
  induction n as [|n IH]; intros w Hwf; simpl; [by exists w|].
  rewrite bind_reads.
  destruct (next_due (timers w)) as [t|]; [|by exists w].
  destruct (due t <=? until); [|by exists w].
  destruct (fire_wf t w Hwf) as (w1 & Hfire & Hwf1).
  rewrite (bind_run _ _ _ _ _ Hfire). by apply IH.
Qed.

Lemma advance_wf dt w :
  timers_wf w → ∃ w', advance dt w = Ok tt w' ∧ timers_wf w'.
Proof.
  intros Hwf.
  destruct (run_timers_wf (clock w + dt) (length (timers w)) w Hwf)
    as (w1 & Hrun & Hwf1).
  unfold advance. rewrite !bind_reads, (bind_run _ _ _ _ _ Hrun).
  eexists. split; [reflexivity|]. exact Hwf1.
Qed.

Lemma constructor_wf entryId now programs cfg :
  ∃ w', Program.constructor entryId (boot now programs cfg) = Ok tt w' ∧
        timers_wf w'.
Proof.
  unfold Program.constructor.
  rewrite !bind_modify, bind_reads, bind_modify.
  match goal with |- context [ (Program._load entryId ≫= _) ?w0 ] =>
    destruct (load_wf entryId w0) as (w1 & Hrun & Hwf1)
  end.
  { split; [apply NoDup_nil_2|].
    split; intros t Ht; by apply elem_of_nil in Ht. }
  rewrite (bind_run _ _ _ _ _ Hrun), bind_reads.
  destruct (setTimeout_gc_wf (_programGCInterval w1) w1 Hwf1)
    as (h & w2 & Harm & Hwf2 & _).
  rewrite (bind_run _ _ _ _ _ Harm). exists w2. done.
Qed.

(** Well-formedness of the timer table is an invariant of the program: it
    holds after [new Program()], and every method, the queued sweep and the
    passing of time keep it. *)
Lemma timers_wf_invariant :
  (∀ entryId now programs cfg,
     ∃ w', Program.constructor entryId (boot now programs cfg) = Ok tt w' ∧
           timers_wf w') ∧
  ∀ w, timers_wf w →
    (∃ w', Program.save w = Ok tt w' ∧ timers_wf w') ∧
    (∀ e, ∃ w', Program.add e w = Ok tt w' ∧ timers_wf w') ∧
    (∀ e, ∃ w', Program.remove e w = Ok tt w' ∧ timers_wf w') ∧
    (∃ count w', Program.gc_task w = Ok count w' ∧ timers_wf w') ∧
    (∀ dt, ∃ w', advance dt w = Ok tt w' ∧ timers_wf w').
Proof.
  split; [apply constructor_wf|]. intros w Hwf.
  split.
  { destruct (save_run w) as (w' & Hrun & Hs & _). exists w'.
    split; [exact Hrun|]. by eapply scheduled_wf. }
  split; [intros e; by apply add_wf|].
  split; [intros e; by apply remove_wf|].
  split; [by apply gc_task_wf|intros dt; by apply advance_wf].
Qed.

Lemma save_wf w :
  timers_wf w →
  ∃ w', Program.save w = Ok tt w' ∧ timers_wf w' ∧
        save_pending w' (clock w + 3000) ∧
        writes w' = writes w ∧ _items w' = _items w ∧ clock w' = clock w.
Proof.
  intros Hwf.
  destruct (save_run w) as (w' & Hrun & Hs & Hi).
  exists w'. split; [exact Hrun|]. split; [by eapply scheduled_wf|].
  destruct Hs as (Hid & Ht & _ & Hclk & Hw & _).
  split; [|done].
  exists (timerSeq w). split; [exact Hid|].
  rewrite Ht. apply elem_of_app. right. left.
Qed.

Lemma pending_is_only_save w d t :
  timers_wf w → save_pending w d → t ∈ timers w → cb t = SaveCb →
  ∃ h, _saveTimerId w = Some h ∧ t = mkTimer h d SaveCb.
Proof.
  intros (Hnd & _ & Hsave) (h & Hh & Hin) Ht Hcb.
  exists h. split; [exact Hh|].
  eapply same_handle_same_timer; eauto.
  specialize (Hsave t Ht Hcb). simpl. congruence.
Qed.

Lemma advance_quiet w d dt :
  timers_wf w → save_pending w d → clock w + dt < d →
  ∃ w', advance dt w = Ok tt w' ∧ timers_wf w' ∧ save_pending w' d ∧
        writes w' = writes w ∧ _items w' = _items w ∧
        clock w' = clock w + dt.
Proof.
  intros Hwf Hp Hlt.
  destruct (run_timers_quiet (clock w + dt) (length (timers w)) w)
    as (w1 & Hrun & Hsub & Hkeep & Hw & Hi & Hs & Hq).
  { apply Hwf. }
  { intros t Ht Hcb.
    destruct (pending_is_only_save w d t Hwf Hp Ht Hcb) as (h & _ & ->). done. }
  unfold advance. rewrite !bind_reads, (bind_run _ _ _ _ _ Hrun).
  eexists. split; [reflexivity|].
  destruct Hwf as (Hnd & Hb & Hsave). destruct Hp as (h & Hh & Hin).
  split; [|split; [|done]].
  - unfold timers_wf; simpl. split; [|split].
    + by eapply NoDup_handles_sublist.
    + intros t Ht. rewrite Hq. apply Hb. by eapply elem_of_sublist.
    + intros t Ht Hcb. rewrite Hs. apply Hsave; [|done]. by eapply elem_of_sublist.
  - exists h. simpl. split; [congruence|]. by apply Hkeep.
Qed.

Lemma advance_fires w d dt :
  timers_wf w → save_pending w d → clock w ≤ d → d ≤ clock w + dt →
  ∃ w', advance dt w = Ok tt w' ∧
        writes w' = writes w ++ [(d, ProgramItem.data <$> _items w)] ∧
        _items w' = _items w.
Proof.
  intros Hwf Hp Hge Hle.
  pose proof Hp as (h & Hh & Hin).
  destruct (run_timers_fires (clock w + dt) (length (timers w)) w (mkTimer h d SaveCb))
    as (w1 & Hrun & Hw & Hi); try done.
  { apply Hwf. }
  { intros t Ht Hcb.
    destruct (pending_is_only_save w d t Hwf Hp Ht Hcb) as (h' & Hh' & ->).
    congruence. }
  unfold advance. rewrite !bind_reads, (bind_run _ _ _ _ _ Hrun).
  eexists. split; [reflexivity|]. done.
Qed.

Lemma requests_run steps :
  ∀ w,
    timers_wf w → save_pending w (clock w + 3000) →
    Forall (λ step, 0 ≤ fst step < 3000) steps →
    ∃ w', requests steps w = Ok tt w' ∧ timers_wf w' ∧
          save_pending w' (clock w' + 3000) ∧ writes w' = writes w ∧
          clock w' = clock w + foldr Z.add 0 (fst <$> steps) ∧
          _items w' = foldl (λ its step, snd step its) (_items w) steps.
Proof.
  induction steps as [|[gap change] steps IH]; intros w Hwf Hp Hgaps; simpl.
  - exists w. rewrite Z.add_0_r. done.
  - apply Forall_cons in Hgaps as [Hgap Hgaps]. simpl in Hgap.
    destruct (advance_quiet w (clock w + 3000) gap Hwf Hp) as
      (w1 & Hadv & Hwf1 & Hp1 & Hw1 & Hi1 & Hc1); [lia|].
    set (w2 := set_items change w1).
    assert (Hwf2 : timers_wf w2) by exact Hwf1.
    destruct (save_wf w2 Hwf2) as (w3 & Hsave & Hwf3 & Hp3 & Hw3 & Hi3 & Hc3).
    assert (Hstep : next_request (gap, change) w = Ok tt w3).
    { unfold next_request. simpl.
      rewrite (bind_run _ _ _ _ _ Hadv), bind_modify. exact Hsave. }
    destruct (IH w3) as (w' & Hrun & Hwf' & Hp' & Hw' & Hc' & Hi'); try done.
    { rewrite Hc3. exact Hp3. }
    exists w'. rewrite (bind_run _ _ _ _ _ Hstep).
    split; [exact Hrun|]. split; [exact Hwf'|]. split; [exact Hp'|].
    subst w2. simpl in *.
    split; [congruence|]. split.
    + rewrite Hc', Hc3, Hc1, <- Z.add_assoc. reflexivity.
    + by rewrite Hi', Hi3, Hi1.
Qed.

(** ** Identifiers stay unique *)

Lemma add_unique item w :
  unique_ids w → ∃ w', Program.add item w = Ok tt w' ∧ unique_ids w'.
Proof.
  intros H. destruct (register_run item w) as (w' & Hrun & Hi & _).
  exists w'. split; [exact Hrun|]. unfold unique_ids. rewrite Hi.
  by apply register_unique.
Qed.

Lemma sublist_unique (its its' : list ProgramItem.t) :
  sublist its' its →
  NoDup (ProgramItem.id <$> its) → NoDup (ProgramItem.id <$> its').
Proof.
  intros Hs Hnd. eapply sublist_NoDup; [exact Hnd|]. by apply fmap_sublist.
Qed.

Lemma remove_unique item w :
  unique_ids w → ∃ w', Program.remove item w = Ok tt w' ∧ unique_ids w'.
Proof.
  intros H. destruct (indexOf (_items w) item) as [i|] eqn:E.
  - destruct (remove_at item w i E) as (w' & Hrun & Hi & _).
    exists w'. split; [exact Hrun|]. unfold unique_ids. rewrite Hi.
    eapply sublist_unique; [apply sublist_delete|exact H].
  - exists w. split; [|exact H]. apply remove_absent. by apply indexOf_None.
Qed.

Lemma load_unique entryId w :
  unique_ids w → ∃ w', Program._load entryId w = Ok tt w' ∧ unique_ids w'.
Proof.
  intros H. destruct (load_run entryId w) as (w' & Hrun & _ & Hi & _).
  exists w'. split; [exact Hrun|]. unfold unique_ids. rewrite Hi.
  by apply foldl_register_unique.
Qed.

Lemma gc_unique w :
  unique_ids w →
  ∃ count w', Program.gc_task w = Ok count w' ∧ unique_ids w'.
Proof.
  intros H. destruct (gc_task_run w) as (count & w' & Hrun & Hsub & _).
  exists count, w'. split; [exact Hrun|]. by eapply sublist_unique.
Qed.

Lemma constructor_unique entryId now programs cfg :
  ∃ w', Program.constructor entryId (boot now programs cfg) = Ok tt w' ∧
        unique_ids w'.
Proof.
  unfold Program.constructor.
  rewrite !bind_modify, bind_reads, bind_modify.
  match goal with |- context [ (Program._load entryId ≫= _) ?w0 ] =>
    destruct (load_unique entryId w0) as (w1 & Hrun & Hu); [apply NoDup_nil_2|]
  end.
  rewrite (bind_run _ _ _ _ _ Hrun), bind_reads.
  eexists. split; [reflexivity|]. exact Hu.
Qed.

(** ** The identifier packing *)

Lemma round_half_even_error p q :
  0 < q → 0 ≤ p →
  0 ≤ round_half_even p q ∧
  - q ≤ 2 * (round_half_even p q * q - p) ≤ q.
Proof.
  intros Hq Hp. unfold round_half_even.
  pose proof (Z.div_mod p q ltac:(lia)) as Hdm.
  pose proof (Z.mod_pos_bound p q Hq) as Hr.
  assert (0 ≤ p / q) by (apply Z.div_pos; lia).
  destruct (2 * (p mod q) <? q) eqn:E1; [apply Z.ltb_lt in E1; nia|].
  apply Z.ltb_ge in E1.
  destruct (q <? 2 * (p mod q)) eqn:E2; [apply Z.ltb_lt in E2; nia|].
  apply Z.ltb_ge in E2.
  destruct (Z.even (p / q)); nia.
Qed.

(** No rounding risk: for a field value [s] below 100000, the double
    nearest to [s / 100000], scaled back by [10^5] and rounded as [toFixed]
    does, is [s] again. *)
Lemma nearest_scaled_div s :
  0 ≤ s < 100000 → nearest_scaled 5 (js_div s 100000) = s.
Proof.
  intros Hs. unfold js_div.
  destruct (s =? 0) eqn:E0; [apply Z.eqb_eq in E0; subst s; reflexivity|].
  apply Z.eqb_neq in E0.
  rewrite Z.abs_eq by lia. rewrite Z.sgn_pos by lia.
  change (Z.log2 100000) with 16.
  assert (Hlog : 0 ≤ Z.log2 s < 17).
  { split; [apply Z.log2_nonneg|]. apply Z.log2_lt_pow2; lia. }
  set (e0 := Z.log2 s - 16 - 52).
  set (reach := if 0 <=? e0 then _ else _).
  set (e := if reach then e0 else e0 - 1).
  assert (He : e ≤ -52) by (subst e; destruct reach; lia).
  clearbody e. clear reach.
  rewrite (proj2 (Z.leb_gt 0 e)) by lia.
  unfold nearest_scaled. cbn [mant expo].
  rewrite (proj2 (Z.leb_gt 0 e)) by lia.
  set (P := 2 ^ (- e)).
  assert (HP : 2 ^ 52 ≤ P) by (apply Z.pow_le_mono_r; lia).
  replace (2 ^ (1 - e)) with (2 * P)
    by (subst P; rewrite <- Z.pow_succ_r by lia; f_equal; lia).
  destruct (round_half_even_error (s * P) 100000) as [Hm Herr]; [lia|nia|].
  set (m := round_half_even (s * P) 100000) in *. clearbody m.
  rewrite Z.mul_1_l, Z.abs_eq by exact Hm.
  change (10 ^ Z.of_nat 5) with 100000.
  change (2 ^ 52) with 4503599627370496 in HP.
  symmetry. apply (Z.div_unique_pos _ _ s (2 * (m * 100000) + P - 2 * P * s)); lia.
Qed.

Lemma digit_of_digit_char d :
  0 ≤ d < 10 → digit_of (digit_char d) = Some d.
Proof.
  intros Hd.
  assert (d = 0 ∨ d = 1 ∨ d = 2 ∨ d = 3 ∨ d = 4 ∨ d = 5 ∨ d = 6 ∨ d = 7
          ∨ d = 8 ∨ d = 9) as Hcases by lia.
  repeat (destruct Hcases as [->|Hcases]; [reflexivity|]). subst d. reflexivity.
Qed.

Lemma digits_fuel_small f n :
  0 ≤ n < 10 → digits_fuel f n = String (digit_char n) EmptyString.
Proof.
  intros Hn. destruct f; simpl.
  - rewrite Z.mod_small by lia. reflexivity.
  - rewrite (proj2 (Z.ltb_lt n 10)) by lia. reflexivity.
Qed.

(** Any fuel that is enough gives the same digits. *)
Lemma digits_fuel_indep f :
  ∀ g n, 0 ≤ n < 10 * 2 ^ Z.of_nat f → n < 10 * 2 ^ Z.of_nat g →
         digits_fuel f n = digits_fuel g n.
Proof.
  induction f as [|f IH]; intros g n Hf Hg.
  - change (2 ^ Z.of_nat 0) with 1 in Hf.
    rewrite !digits_fuel_small by lia. reflexivity.
  - destruct (decide (n < 10)) as [Hlt|Hge].
    { rewrite !digits_fuel_small by lia. reflexivity. }
    destruct g as [|g]; [change (2 ^ Z.of_nat 0) with 1 in Hg; lia|].
    simpl digits_fuel. rewrite (proj2 (Z.ltb_ge n 10)) by lia.
    rewrite Nat2Z.inj_succ, Z.pow_succ_r in Hf, Hg by lia.
    f_equal. apply IH.
    + split; [apply Z.div_pos; lia|].
      apply Z.div_lt_upper_bound; lia.
    + apply Z.div_lt_upper_bound; lia.
Qed.

Lemma log2_fuel_enough n :
  0 ≤ n → n < 10 * 2 ^ Z.of_nat (Z.to_nat (Z.log2 n)).
Proof.
  intros Hn. rewrite Z2Nat.id by apply Z.log2_nonneg.
  destruct (decide (n = 0)) as [->|Hne]; [reflexivity|].
  pose proof (Z.log2_spec n ltac:(lia)) as [_ Hup].
  rewrite Z.pow_succ_r in Hup by apply Z.log2_nonneg. lia.
Qed.

Lemma decimal_fuel f n :
  0 ≤ n < 10 * 2 ^ Z.of_nat f → decimal n = digits_fuel f n.
Proof.
  intros Hn. unfold decimal. apply digits_fuel_indep; [|lia].
  split; [lia|]. apply log2_fuel_enough. lia.
Qed.

Lemma decimal_small n :
  0 ≤ n < 10 → decimal n = String (digit_char n) EmptyString.
Proof. intros Hn. apply digits_fuel_small. exact Hn. Qed.

Lemma decimal_step n :
  10 ≤ n →
  decimal n = (decimal (n / 10) ++ String (digit_char (n mod 10)) EmptyString)%string.
Proof.
  intros Hn.
  pose proof (log2_fuel_enough n ltac:(lia)) as Hfuel.
  unfold decimal at 1.
  destruct (Z.to_nat (Z.log2 n)) as [|f] eqn:Ef.
  { change (2 ^ Z.of_nat 0) with 1 in Hfuel. lia. }
  simpl digits_fuel. rewrite (proj2 (Z.ltb_ge n 10)) by lia.
  f_equal. symmetry. apply decimal_fuel.
  rewrite Nat2Z.inj_succ, Z.pow_succ_r in Hfuel by lia.
  split; [apply Z.div_pos; lia|]. apply Z.div_lt_upper_bound; lia.
Qed.

(** Linear arithmetic with divisions and remainders by constants. *)
Ltac divlia := Z.to_euclidean_division_equations; lia.

(** What [toFixed(5)] prints after the point, once the digits are known. *)
Lemma toFixed_fraction x s :
  0 ≤ mant x → nearest_scaled 5 x = s → 0 ≤ s < 100000 →
  slice 2 (toFixed 5 x) = pad5 s.
Proof.
  intros Hx Hn Hs. unfold toFixed. rewrite Hn.
  rewrite (proj2 (Z.ltb_ge (mant x) 0)) by lia.
  unfold pad5.
  destruct (decide (s < 10)) as [H1|H1].
  { rewrite decimal_small by divlia.
    replace (s / 10000 mod 10) with 0 by divlia.
    replace (s / 1000 mod 10) with 0 by divlia.
    replace (s / 100 mod 10) with 0 by divlia.
    replace (s / 10 mod 10) with 0 by divlia.
    replace (s mod 10) with s by divlia. reflexivity. }
  rewrite (decimal_step s) by lia.
  destruct (decide (s < 100)) as [H2|H2].
  { rewrite (decimal_small (s / 10)) by divlia.
    replace (s / 10000 mod 10) with 0 by divlia.
    replace (s / 1000 mod 10) with 0 by divlia.
    replace (s / 100 mod 10) with 0 by divlia.
    replace (s / 10 mod 10) with (s / 10) by divlia. reflexivity. }
  rewrite (decimal_step (s / 10)) by divlia.
  replace (s / 10 / 10) with (s / 100) by divlia.
  destruct (decide (s < 1000)) as [H3|H3].
  { rewrite (decimal_small (s / 100)) by divlia.
    replace (s / 10000 mod 10) with 0 by divlia.
    replace (s / 1000 mod 10) with 0 by divlia.
    replace (s / 100 mod 10) with (s / 100) by divlia. reflexivity. }
  rewrite (decimal_step (s / 100)) by divlia.
  replace (s / 100 / 10) with (s / 1000) by divlia.
  destruct (decide (s < 10000)) as [H4|H4].
  { rewrite (decimal_small (s / 1000)) by divlia.
    replace (s / 10000 mod 10) with 0 by divlia.
    replace (s / 1000 mod 10) with (s / 1000) by divlia. reflexivity. }
  rewrite (decimal_step (s / 1000)) by divlia.
  replace (s / 1000 / 10) with (s / 10000) by divlia.
  rewrite (decimal_small (s / 10000)) by divlia.
  replace (s / 10000 mod 10) with (s / 10000) by divlia. reflexivity.
Qed.

Lemma js_div_nonneg a b :
  0 ≤ a → 0 < b → 0 ≤ mant (js_div a b).
Proof.
  intros Ha Hb. unfold js_div.
  destruct (a =? 0) eqn:E0; [simpl; lia|].
  apply Z.eqb_neq in E0. cbn [mant].
  rewrite Z.sgn_pos, Z.mul_1_l, Z.abs_eq by lia.
  match goal with |- 0 ≤ (if 0 <=? ?e then _ else _) =>
    generalize e; intros e' end.
  destruct (0 <=? e') eqn:Ee.
  - apply Z.leb_le in Ee.
    assert (0 < 2 ^ e') by (apply Z.pow_pos_nonneg; lia).
    apply round_half_even_error; nia.
  - assert (0 ≤ 2 ^ (- e')) by (apply Z.pow_nonneg; lia).
    apply round_half_even_error; nia.
Qed.

Lemma fraction_digits s :
  0 ≤ s < 100000 → slice 2 (toFixed 5 (js_div s 100000)) = pad5 s.
Proof.
  intros Hs. apply toFixed_fraction; [|by apply nearest_scaled_div|exact Hs].
  apply js_div_nonneg; lia.
Qed.

Lemma all_digits_app a b :
  all_digits (a ++ b) = all_digits a && all_digits b.
Proof.
  induction a as [|c a IH]; cbn [all_digits append]; [reflexivity|].
  rewrite IH. apply andb_assoc.
Qed.

Lemma parse_digits_app a b acc :
  all_digits a = true →
  parse_digits (a ++ b) acc = parse_digits b (parse_digits a acc).
Proof.
  revert acc. induction a as [|c a IH]; intros acc H;
    cbn [all_digits parse_digits append] in *; [reflexivity|].
  apply andb_true_iff in H as [Hc Ha]. apply bool_decide_eq_true in Hc.
  destruct (digit_of c) as [d|]; [|done]. by apply IH.
Qed.

Lemma digits_fuel_parse f :
  ∀ n, 0 ≤ n < 10 * 2 ^ Z.of_nat f →
       all_digits (digits_fuel f n) = true ∧
       parse_digits (digits_fuel f n) None = Some n.
Proof.
  assert (Hsmall : ∀ g n, 0 ≤ n < 10 →
            all_digits (digits_fuel g n) = true ∧
            parse_digits (digits_fuel g n) None = Some n).
  { intros g n Hn. rewrite digits_fuel_small by exact Hn.
    cbn [all_digits parse_digits].
    rewrite digit_of_digit_char by exact Hn. split; [done|].
    f_equal; lia. }
  induction f as [|f IH]; intros n Hn.
  - change (2 ^ Z.of_nat 0) with 1 in Hn. apply Hsmall. lia.
  - destruct (decide (n < 10)) as [Hlt|Hge]; [apply Hsmall; lia|].
    simpl digits_fuel. rewrite (proj2 (Z.ltb_ge n 10)) by lia.
    rewrite Nat2Z.inj_succ, Z.pow_succ_r in Hn by lia.
    destruct (IH (n / 10)) as [Hall Hparse].
    { split; [apply Z.div_pos; lia|]. apply Z.div_lt_upper_bound; lia. }
    assert (Hd : digit_of (digit_char (n mod 10)) = Some (n mod 10))
      by (apply digit_of_digit_char; divlia).
    split.
    + rewrite all_digits_app, Hall. cbn [all_digits]. rewrite Hd. done.
    + rewrite parse_digits_app by exact Hall. rewrite Hparse.
      cbn [parse_digits]. rewrite Hd. cbn zeta. f_equal. divlia.
Qed.

Lemma decimal_parse n :
  0 ≤ n →
  all_digits (decimal n) = true ∧ parse_digits (decimal n) None = Some n.
Proof.
  intros Hn. apply digits_fuel_parse. split; [exact Hn|].
  by apply log2_fuel_enough.
Qed.

Lemma pad5_parse s :
  0 ≤ s < 100000 →
  all_digits (pad5 s) = true ∧
  ∀ a, parse_digits (pad5 s) (Some a) = Some (a * 100000 + s).
Proof.
  intros Hs. unfold pad5. cbn [all_digits parse_digits].
  rewrite !digit_of_digit_char by divlia.
  split; [done|]. intros a. cbn zeta. f_equal. divlia.
Qed.

(** A string that starts with a digit has no white space to skip and no
    sign. *)
Lemma parseInt_digits c r :
  digit_of c ≠ None →
  parseInt (String c r) =
  match parse_digits (String c r) None with
  | Some v => Num (to_double (1 * v))
  | None => NaN
  end.
Proof.
  intros H. destruct c as [[] [] [] [] [] [] [] []]; try (by destruct H);
    reflexivity.
Qed.

Lemma to_double_exact z : Z.abs z < 2 ^ 53 → to_double z = z.
Proof.
  intros H. unfold to_double. by rewrite (proj2 (Z.ltb_lt _ _) H).
Qed.

(** The packed number, before it is rounded to a double. *)
Lemma getProgramId_value n s e :
  0 ≤ n → 0 ≤ s < 100000 → 0 ≤ e < 100000 →
  Program.getProgramId n s e
  = Num (to_double (n * 10000000000 + s * 100000 + e)).
Proof.
  intros Hn Hs He. unfold Program.getProgramId.
  rewrite !fraction_digits by done.
  unfold Number_toString. rewrite (proj2 (Z.ltb_ge n 0)) by lia.
  destruct (decimal_parse n Hn) as [Hall Hparse].
  destruct (pad5_parse s Hs) as [Halls Hparses].
  destruct (pad5_parse e He) as [_ Hparsee].
  assert (Hnum : parse_digits (decimal n ++ pad5 s ++ pad5 e) None
                 = Some (n * 10000000000 + s * 100000 + e)).
  { rewrite parse_digits_app, Hparse by exact Hall.
    rewrite parse_digits_app, Hparses, Hparsee by exact Halls.
    f_equal. lia. }
  destruct (decimal n) as [|c r] eqn:Ed; [discriminate|].
  cbn [all_digits] in Hall. apply andb_true_iff in Hall as [Hc _].
  apply bool_decide_eq_true in Hc.
  change (String c r ++ pad5 s ++ pad5 e)%string
    with (String c (r ++ pad5 s ++ pad5 e)) in *.
  rewrite (parseInt_digits _ _ Hc), Hnum, Z.mul_1_l. reflexivity.
Qed.

Lemma getProgramId_packed n s e :
  packable n s e →
  Program.getProgramId n s e = Num (n * 10000000000 + s * 100000 + e).
Proof.
  intros (Hn & Hs & He). rewrite getProgramId_value by lia.
  rewrite to_double_exact; [reflexivity|].
  change (2 ^ 53) with 9007199254740992. lia.
Qed.

(** The identifier of the specification's example. *)
Example getProgramId_example :
  Program.getProgramId 32736 1024 40085 = Num 327360102440085.
Proof. vm_compute. reflexivity. Qed.

(** The bound of [packable] cannot be raised: with the network identifier
    900719 two packed numbers already round to [2^53]. *)
Example getProgramId_bound_is_tight :
  Program.getProgramId 900719 92547 40993 = Num (2 ^ 53) ∧
  Program.getProgramId 900719 92547 40992 = Num (2 ^ 53).
Proof. split; vm_compute; reflexivity. Qed.

(** ** What loading keeps *)

Lemma register_keeps its e x : x ∈ its → x ∈ register its e.
Proof.
  intros H. unfold register. destruct (first_with_id _ _); [exact H|].
  apply elem_of_app. by left.
Qed.

Lemma register_has its e : has_id (ProgramItem.id e) (register its e).
Proof.
  unfold register. destruct (first_with_id _ _) as [x|] eqn:E.
  - apply first_with_id_Some in E. exists x. exact E.
  - exists e. split; [|reflexivity]. apply elem_of_app. right. left.
Qed.

Lemma foldl_register_keeps es :
  ∀ its i, has_id i its → has_id i (foldl register its es).
Proof.
  induction es as [|e es IH]; intros its i H; simpl; [exact H|].
  apply IH. destruct H as (x & Hx & Hi). exists x.
  split; [by apply register_keeps|exact Hi].
Qed.

Lemma foldl_register_has es :
  ∀ its e, e ∈ es → has_id (ProgramItem.id e) (foldl register its es).
Proof.
  induction es as [|x es IH]; intros its e H; [by apply elem_of_nil in H|].
  simpl. apply elem_of_cons in H as [->|H]; [|by apply IH].
  apply foldl_register_keeps, register_has.
Qed.

Lemma entries_of_elem entryId rs :
  ∀ base r, r ∈ rs →
    ∃ o, o ∈ entries_of entryId base rs ∧
         ProgramItem.data o = r ∧ ProgramItem.id o = entryId r.
Proof.
  induction rs as [|x rs IH]; intros base r H; [by apply elem_of_nil in H|].
  simpl. apply elem_of_cons in H as [->|H].
  - eexists. split; [left|]. done.
  - destruct (IH (S base) r H) as (o & Ho & Hd). exists o. split; [by right|done].
Qed.

(** * The claims *)

(** C1, at the input where the sweep goes wrong.  Both programmes of
    [two_expired] have ended ([startAt + duration = 10 < 100]), yet the
    sweep removes only the first and reports 1: deleting index 0 moves the
    second programme to index 0, and [forEach] goes on at index 1, which is
    no longer in the array. *)
Theorem gc_sweep_skips_after_removal :
  ∃ w', Program.gc_task two_expired = Ok 1%nat w' ∧
        _items w' = [sample_item 1 11 0 10] ∧
        Program.expired (clock two_expired)
          (ProgramItem.data (sample_item 1 11 0 10)) = true.
Proof. eexists. split; [vm_compute; reflexivity|]. split; reflexivity. Qed.

(** C2, as stated, fails: above network identifier 900718 the packed number
    passes [2^53] and [parseInt] rounds it, so two distinct triples with a
    positive network identifier and both fields below 100000 get the same
    identifier. *)
Lemma getProgramId_collision :
  0 < 900720 ∧ 0 ≤ 0 < 100000 ∧ 0 ≤ 1 < 100000 ∧
  (900720, 0, 0) ≠ (900720, 0, 1) ∧
  Program.getProgramId 900720 0 0 = Program.getProgramId 900720 0 1.
Proof.
  split; [lia|]. split; [lia|]. split; [lia|]. split; [discriminate|].
  vm_compute. reflexivity.
Qed.

(** C2, amended.  [getProgramId] is a function of its three arguments, and
    on triples with a network identifier between 1 and 900718 and service
    and event identifiers in [0, 100000) it is the decimal packing
    [networkId * 10^10 + serviceId * 10^5 + eventId]; two such triples get
    the same identifier only if they are the same triple. *)
Theorem getProgramId_injective (n s e n' s' e' : Z) :
  packable n s e → packable n' s' e' →
  Program.getProgramId n s e = Num (n * 10000000000 + s * 100000 + e) ∧
  (Program.getProgramId n s e = Program.getProgramId n' s' e'
   ↔ (n, s, e) = (n', s', e')).
Proof.
  intros H H'. split; [by apply getProgramId_packed|]. split.
  - rewrite !getProgramId_packed by done.
    destruct H as (Hn & Hs & He), H' as (Hn' & Hs' & He').
    intros [= Heq].
    assert (n = n') by lia. assert (s = s') by lia. assert (e = e') by lia.
    congruence.
  - intros [= -> -> ->]. reflexivity.
Qed.

(** Two neighbouring services of one network. *)
Lemma getProgramId_injective_witness :
  Program.getProgramId 32736 1024 40085 = Num (32736 * 10000000000 + 1024 * 100000 + 40085) ∧
  (Program.getProgramId 32736 1024 40085 = Program.getProgramId 32736 1025 40085
   ↔ (32736, 1024, 40085) = (32736, 1025, 40085)).
Proof.
  apply (getProgramId_injective 32736 1024 40085 32736 1025 40085);
    unfold packable; lia.
Defined.

(** C3. [findConflicts] returns exactly the entries of the store, in order,
    that are on the given network and service and whose [startAt] lies in
    the half-open window [start ≤ startAt < end]; an entry that starts
    before [start] is never returned, whatever its duration; and on a store
    of entries of network 1, service 2 starting at 999, 1000, 1500, 1999 or
    2000, the window [1000, 2000) selects those starting at 1000, 1500 and
    1999. *)
Theorem findConflicts_half_open (w : World) (networkId serviceId start end_ : Z) :
  Program.findConflicts networkId serviceId start end_ w
    = Ok (filter (in_window networkId serviceId start end_) (_items w)) w
  ∧ (∀ item t,
       db.startAt (ProgramItem.data item) = Num t → t < start →
       item ∉ filter (in_window networkId serviceId start end_) (_items w))
  ∧ (Forall (λ item,
       db.networkId (ProgramItem.data item) = Num 1 ∧
       db.serviceId (ProgramItem.data item) = Num 2 ∧
       db.startAt (ProgramItem.data item)
         ∈ [Num 999; Num 1000; Num 1500; Num 1999; Num 2000]) (_items w) →
     Program.findConflicts 1 2 1000 2000 w
       = Ok (filter (λ item, db.startAt (ProgramItem.data item)
                               ∈ [Num 1000; Num 1500; Num 1999]) (_items w)) w).
Proof.
  split; [apply findConflicts_run|]. split.
  - intros item t Ht Hlt [(_ & _ & Hw) _]%list_elem_of_filter.
    rewrite Ht in Hw. lia.
  - intros Hall. rewrite findConflicts_run. f_equal.
    induction Hall as [|item its (Hn & Hs & Hst) _ IH]; [reflexivity|].
    rewrite !filter_cons, IH.
    assert (Hiff : in_window 1 2 1000 2000 item
                   ↔ db.startAt (ProgramItem.data item)
                       ∈ [Num 1000; Num 1500; Num 1999]).
    { unfold in_window. rewrite Hn, Hs.
      repeat (apply elem_of_cons in Hst as [Hst|Hst]);
        [..|by apply elem_of_nil in Hst]; rewrite Hst; compute_done. }
    destruct (decide (in_window 1 2 1000 2000 item)) as [Hin|Hout];
      [rewrite decide_True by (by apply Hiff)
      |rewrite decide_False by (by rewrite <- Hiff)]; reflexivity.
Qed.

(** The five sample programmes: three fall in the window. *)
Lemma findConflicts_half_open_witness :
  Program.findConflicts 1 2 1000 2000 window_store
  = Ok [sample_item 1 101 1000 1800; sample_item 2 102 1500 1800;
        sample_item 3 103 1999 1800] window_store.
Proof.
  refine (proj2 (proj2 (findConflicts_half_open window_store 1 2 1000 2000)) _).
  vm_compute. repeat constructor.
Defined.

(** C4. [add(e)]: when the store already holds an entry with [e]'s [id],
    the call ends normally in the unchanged state (nothing is appended, no
    timer is touched, no error is raised); otherwise [e] goes to the end of
    the sequence and a debounced save is scheduled. *)
Theorem add_idempotent_insert (w : World) (e : ProgramItem.t) :
  (has_id (ProgramItem.id e) (_items w) → Program.add e w = Ok tt w) ∧
  (¬ has_id (ProgramItem.id e) (_items w) →
   ∃ w', Program.add e w = Ok tt w' ∧
         _items w' = _items w ++ [e] ∧
         debounced_save_scheduled w w').
Proof. split; [apply add_present|apply add_fresh]. Qed.

(** Adding under a taken [id] (11) and under a free one (12). *)
Lemma add_idempotent_insert_witness :
  Program.add (sample_item 7 11 500 60) two_expired = Ok tt two_expired ∧
  ∃ w', Program.add (sample_item 7 12 500 60) two_expired = Ok tt w' ∧
        _items w' = _items two_expired ++ [sample_item 7 12 500 60] ∧
        debounced_save_scheduled two_expired w'.
Proof.
  split.
  - apply (proj1 (add_idempotent_insert two_expired (sample_item 7 11 500 60))).
    exists (sample_item 1 11 0 10). split; [|reflexivity].
    right. left.
  - apply (proj2 (add_idempotent_insert two_expired (sample_item 7 12 500 60))).
    intros (x & Hx & Hid). vm_compute in Hx.
    repeat (apply elem_of_cons in Hx as [->|Hx]); try discriminate.
    by apply elem_of_nil in Hx.
Defined.

(** C5. "No two entries have the same id" holds in the empty store a new
    [Program] starts from, and each of [add], [remove], [_load] and the GC
    sweep ends normally in a state where it holds again, when started in a
    state where it holds. *)
Theorem unique_ids_invariant :
  (∀ now programs cfg, unique_ids (boot now programs cfg)) ∧
  ∀ w, unique_ids w →
    (∀ e, ∃ w', Program.add e w = Ok tt w' ∧ unique_ids w') ∧
    (∀ e, ∃ w', Program.remove e w = Ok tt w' ∧ unique_ids w') ∧
    (∀ entryId, ∃ w', Program._load entryId w = Ok tt w' ∧ unique_ids w') ∧
    (∃ count w', Program.gc_task w = Ok count w' ∧ unique_ids w').
Proof.
  split; [intros; apply NoDup_nil_2|]. intros w H.
  split; [intros e; by apply add_unique|].
  split; [intros e; by apply remove_unique|].
  split; [intros entryId; by apply load_unique|by apply gc_unique].
Qed.

(** The two-programme store: an [add] and a sweep. *)
Lemma unique_ids_invariant_witness :
  unique_ids two_expired ∧
  (∃ w', Program.add (sample_item 7 11 500 60) two_expired = Ok tt w' ∧ unique_ids w') ∧
  (∃ count w', Program.gc_task two_expired = Ok count w' ∧ unique_ids w').
Proof.
  assert (H : unique_ids two_expired).
  { unfold unique_ids. compute_done. }
  split; [exact H|].
  destruct (proj2 unique_ids_invariant two_expired H) as (Hadd & _ & _ & Hgc).
  split; [apply Hadd|exact Hgc].
Defined.

(** C6. [remove(e)] works on the object, not on its [id]: when no entry of
    the store is the object [e] (even if one has the same [id]) the call
    ends in the unchanged state and schedules nothing; when [e] is in the
    store, the sequence is [l1 ++ y :: l2] with [y] the first entry that is
    the object [e], and the call leaves [l1 ++ l2] (exactly that entry is
    deleted, every other entry keeps its place) and schedules a debounced
    save. *)
Theorem remove_by_reference (w : World) (e : ProgramItem.t) :
  (¬ member e (_items w) → Program.remove e w = Ok tt w) ∧
  (member e (_items w) →
   ∃ l1 y l2 w',
     _items w = l1 ++ y :: l2 ∧
     ProgramItem.ref y = ProgramItem.ref e ∧ ¬ member e l1 ∧
     Program.remove e w = Ok tt w' ∧
     _items w' = l1 ++ l2 ∧
     debounced_save_scheduled w w').
Proof.
  split; [apply remove_absent|]. intros Hm.
  destruct (member_split e (_items w) Hm) as (l1 & y & l2 & Hl & Hy & Hl1).
  destruct (remove_present e w l1 y l2 Hl Hy Hl1) as (w' & Hrun & Hi & Hs).
  exists l1, y, l2, w'. done.
Qed.

(** Removing another object that has the [id] of an entry (nothing
    happens), then the entry itself. *)
Lemma remove_by_reference_witness :
  Program.remove (sample_item 7 11 0 10) two_expired = Ok tt two_expired ∧
  ∃ l1 y l2 w',
    _items two_expired = l1 ++ y :: l2 ∧
    ProgramItem.ref y = ProgramItem.ref (sample_item 1 11 0 10) ∧
    ¬ member (sample_item 1 11 0 10) l1 ∧
    Program.remove (sample_item 1 11 0 10) two_expired = Ok tt w' ∧
    _items w' = l1 ++ l2 ∧
    debounced_save_scheduled two_expired w'.
Proof.
  split.
  - apply (proj1 (remove_by_reference two_expired (sample_item 7 11 0 10))).
    intros (x & Hx & Href). vm_compute in Hx.
    repeat (apply elem_of_cons in Hx as [->|Hx]); try discriminate.
    by apply elem_of_nil in Hx.
  - apply (proj2 (remove_by_reference two_expired (sample_item 1 11 0 10))).
    exists (sample_item 1 11 0 10). split; [|reflexivity]. right. left.
Defined.

(** C7. A burst of [save()] calls, each less than 3000 ms after the one
    before, with the store changing between the calls and after the last
    one: no write happens during the burst, and once 3000 ms have passed
    since the last call exactly one write has happened, stamped 3000 ms
    after the last call and carrying [items.map(data)] of the store as it is
    when the timer fires. *)
Theorem debounce_coalesces (w : World)
    (steps : list (Z * (list ProgramItem.t → list ProgramItem.t)))
    (last_change : list ProgramItem.t → list ProgramItem.t) (dt : Z) :
  timers_wf w →
  Forall (λ step, 0 ≤ fst step < 3000) steps →
  3000 ≤ dt →
  ∃ w1 w2,
    save_burst steps w = Ok tt w1 ∧
    writes w1 = writes w ∧
    clock w1 = clock w + foldr Z.add 0 (fst <$> steps) ∧
    (modify (set_items last_change);; advance dt) w1 = Ok tt w2 ∧
    writes w2 = writes w
      ++ [(clock w1 + 3000, ProgramItem.data <$> last_change (_items w1))].
Proof.
  intros Hwf Hgaps Hdt.
  destruct (save_wf w Hwf) as (w0 & Hsave & Hwf0 & Hp0 & Hw0 & Hi0 & Hc0).
  destruct (requests_run steps w0) as (w1 & Hrun & Hwf1 & Hp1 & Hw1 & Hc1 & Hi1);
    [done|by rewrite Hc0|done|].
  set (w1' := set_items last_change w1).
  destruct (advance_fires w1' (clock w1 + 3000) dt) as (w2 & Hadv & Hw2 & _);
    [exact Hwf1|exact Hp1|simpl; lia|simpl; lia|].
  exists w1, w2. split.
  { unfold save_burst. rewrite (bind_run _ _ _ _ _ Hsave). exact Hrun. }
  split; [congruence|]. split; [congruence|]. split.
  { rewrite bind_modify. exact Hadv. }
  rewrite Hw2. subst w1'. simpl. congruence.
Qed.

(** Three requests, 1000 and 2999 ms apart, with the store changing in
    between and after the last one. *)
Lemma debounce_coalesces_witness :
  ∃ w1 w2,
    save_burst [(1000, λ its, its ++ [sample_item 2 12 500 60]); (2999, λ its, its)]
      two_expired = Ok tt w1 ∧
    writes w1 = writes two_expired ∧
    clock w1 = clock two_expired + foldr Z.add 0 [1000; 2999] ∧
    (modify (set_items (delete 0%nat));; advance 3000) w1 = Ok tt w2 ∧
    writes w2 = writes two_expired
      ++ [(clock w1 + 3000, ProgramItem.data <$> delete 0%nat (_items w1))].
Proof.
  apply (debounce_coalesces two_expired
           [(1000, λ its, its ++ [sample_item 2 12 500 60]); (2999, λ its, its)]
           (delete 0%nat) 3000).
  - split; [apply NoDup_nil_2|].
    split; intros t Ht; by apply elem_of_nil in Ht.
  - repeat constructor; simpl; lia.
  - lia.
Defined.

(** C8, as stated, fails.  The one persisted record has a [networkId] but
    no [serviceId], [eventId] or [startAt]: the specification's wording
    drops it, the code materializes it; and although no record was dropped
    a save is pending after the load, because registering the new entry
    schedules one. *)
Lemma load_keeps_incomplete_record :
  ¬ load_as_claimed packed_id incomplete_boot ∧
  ∃ w', Program._load packed_id incomplete_boot = Ok tt w' ∧
        ProgramItem.data <$> objects w' = stored incomplete_boot ∧
        ∃ t, save_pending w' t.
Proof.
  split.
  - intros (w' & Hrun & Hobj & _).
    vm_compute in Hrun. injection Hrun as <-.
    vm_compute in Hobj. discriminate.
  - eexists. split; [vm_compute; reflexivity|]. split; [reflexivity|].
    exists 3005, 0%nat. split; [reflexivity|]. left.
Qed.

(** C8, amended.  [_load] materializes, in order, exactly the records whose
    [networkId] is not [undefined] and for which [now > startAt + duration]
    is false, and registers each with [add]; every other record is
    dropped.  [_load] itself calls [save] if and only if a record was
    dropped: when at least one was, it ends with one call of [save] after
    the registrations, so a save is pending, due 3000 ms later; when none
    was, it ends in the very state the registrations leave, and on an empty
    list it changes nothing at all. *)
Theorem load_keeps_by_two_tests (entryId : db.Program → Z) (w : World) :
  ∃ w', Program._load entryId w = Ok tt w' ∧
    objects w' = objects w
      ++ entries_of entryId (length (objects w))
           (filter (kept_by_load (clock w)) (stored w)) ∧
    _items w' = foldl register (_items w)
      (entries_of entryId (length (objects w))
         (filter (kept_by_load (clock w)) (stored w))) ∧
    (Exists (λ r, ¬ kept_by_load (clock w) r) (stored w) →
     save_pending w' (clock w + 3000)) ∧
    (Exists (λ r, ¬ kept_by_load (clock w) r) (stored w) →
     ∃ w1, materialize entryId (filter (kept_by_load (clock w)) (stored w)) w
             = Ok tt w1 ∧
           Program.save w1 = Ok tt w') ∧
    (Forall (kept_by_load (clock w)) (stored w) →
     materialize entryId (stored w) w = Ok tt w') ∧
    (stored w = [] → w' = w).
Proof.
  destruct (load_run entryId w) as (w' & Hrun & Hobj & Hitems & Hsave).
  destruct (load_then_save entryId w w' Hrun) as [Hdrop Hkeep].
  exists w'. split; [exact Hrun|]. split; [exact Hobj|]. split; [exact Hitems|].
  split; [exact Hsave|]. split; [exact Hdrop|]. split; [exact Hkeep|].
  intros E. specialize (Hkeep ltac:(rewrite E; constructor)).
  rewrite E in Hkeep. by injection Hkeep.
Qed.

(** The self-heal example: only the third record becomes an entry, and a
    save is pending. *)
Lemma load_keeps_by_two_tests_witness :
  ∃ w', Program._load packed_id self_heal_boot = Ok tt w' ∧
    objects w' = [ProgramItem.mk 0 10000200004
                    (db.mkProgram (Num 1) (Num 2) (Num 4) (Num 0) (Num 1000))] ∧
    _items w' = [ProgramItem.mk 0 10000200004
                   (db.mkProgram (Num 1) (Num 2) (Num 4) (Num 0) (Num 1000))] ∧
    save_pending w' 3005.
Proof.
  destruct (load_keeps_by_two_tests packed_id self_heal_boot)
    as (w' & Hrun & Hobj & Hitems & Hsave & _).
  exists w'. split; [exact Hrun|].
  split; [rewrite Hobj; vm_compute; reflexivity|].
  split; [rewrite Hitems; vm_compute; reflexivity|].
  apply Hsave. left. intros [H _]. by apply H.
Defined.

(** C9.  A record of the persisted list whose [networkId] is defined is
    materialized whenever [now > startAt + duration] is false, which is so
    when [startAt] or [duration] is missing; [serviceId] and [eventId]
    play no part.  The new entry is among the objects the load made, and
    the store then holds an entry with its [id]. *)
Theorem load_ignores_other_fields (entryId : db.Program → Z) (w : World)
    (r : db.Program) :
  r ∈ stored w →
  db.networkId r ≠ Undefined →
  db.startAt r = Undefined ∨ db.duration r = Undefined ∨
    js_gt (Num (clock w)) (js_add (db.startAt r) (db.duration r)) = false →
  ∃ w' new,
    Program._load entryId w = Ok tt w' ∧
    objects w' = objects w ++ new ∧
    (∃ o, o ∈ new ∧ ProgramItem.data o = r) ∧
    has_id (entryId r) (_items w').
Proof.
  intros Hin Hnet Htime.
  assert (Hkept : kept_by_load (clock w) r).
  { split; [exact Hnet|]. destruct Htime as [->|[->|H]]; [done| |exact H].
    by destruct (db.startAt r). }
  destruct (load_run entryId w) as (w' & Hrun & Hobj & Hitems & _).
  destruct (entries_of_elem entryId
              (filter (kept_by_load (clock w)) (stored w))
              (length (objects w)) r) as (o & Ho & Hdata & Hid).
  { apply list_elem_of_filter. done. }
  exists w'. eexists. split; [exact Hrun|]. split; [exact Hobj|].
  split; [by exists o|].
  rewrite Hitems, <- Hid. by apply foldl_register_has.
Qed.

(** The record with nothing but [networkId] and [duration] is loaded. *)
Lemma load_ignores_other_fields_witness :
  ∃ w' new,
    Program._load packed_id incomplete_boot = Ok tt w' ∧
    objects w' = objects incomplete_boot ++ new ∧
    (∃ o, o ∈ new ∧ ProgramItem.data o = incomplete_record) ∧
    has_id (packed_id incomplete_record) (_items w').
Proof.
  apply (load_ignores_other_fields packed_id incomplete_boot incomplete_record).
  - left.
  - discriminate.
  - left. reflexivity.
Defined.

(** C10. The read-only operations [get], [exists], [findByServiceId] and
    [findConflicts] end in the very state they started in: the item
    sequence is unchanged and the save timer is neither armed nor
    cancelled.  The two list queries return the matching entries in the
    order of the store. *)
Theorem queries_are_read_only (w : World) (id serviceId networkId start end_ : Z) :
  Program.get id w = Ok (first_with_id id (_items w)) w ∧
  Program.exists_ id w = Ok (bool_decide (first_with_id id (_items w) ≠ None)) w ∧
  Program.findByServiceId serviceId w
    = Ok (filter (of_service serviceId) (_items w)) w ∧
  Program.findConflicts networkId serviceId start end_ w
    = Ok (filter (in_window networkId serviceId start end_) (_items w)) w.
Proof.
  split; [apply get_run|]. split; [apply exists_run|].
  split; [apply findByServiceId_run|apply findConflicts_run].
Qed.

(** * Further properties *)

(** ** The sweep, exactly *)

Lemma forEach_beyond {C} (f : ProgramItem.t → C → M C) n :
  ∀ k c w, (length (_items w) ≤ k)%nat →
           Program.forEach_loop f k n c w = Ok c w.
Proof.
  induction n as [|n IH]; intros k c w Hk; simpl; [reflexivity|].
  rewrite bind_reads, (lookup_ge_None_2 _ _ Hk). apply IH. lia.
Qed.

Lemma distinct_not_member pre x rest :
  distinct_objects (pre ++ x :: rest) → ¬ member x pre.
Proof.
  unfold distinct_objects. rewrite fmap_app, fmap_cons.
  intros Hnd (y & Hy & Href). apply NoDup_app in Hnd as (_ & Hdis & _).
  apply (Hdis (ProgramItem.ref y)); [by apply list_elem_of_fmap_2|].
  rewrite Href. left.
Qed.

Lemma distinct_sublist l l' :
  sublist l' l → distinct_objects l → distinct_objects l'.
Proof.
  intros Hs Hnd. eapply sublist_NoDup; [exact Hnd|]. by apply fmap_sublist.
Qed.

(** The loop of the sweep from index [length pre], with [pre] already
    passed and [rest] still to come. *)
Lemma gc_forEach_exact now n :
  ∀ pre rest count w,
    _items w = pre ++ rest → distinct_objects (pre ++ rest) →
    (length rest ≤ n)%nat →
    ∃ w', Program.forEach_loop (Program.gc_callback now) (length pre) n count w
            = Ok (count + swept_count now rest)%nat w' ∧
          _items w' = pre ++ swept now rest.
Proof.
  induction n as [|n IH]; intros pre rest count w Hi Hnd Hlen.
  - destruct rest; [|simpl in Hlen; lia]. exists w. simpl.
    rewrite Nat.add_0_r. done.
  - destruct rest as [|x rest].
    { exists w. rewrite forEach_beyond by (rewrite Hi, length_app; simpl; lia).
      simpl. rewrite Nat.add_0_r. done. }
    simpl Program.forEach_loop. rewrite bind_reads, Hi.
    rewrite list_lookup_middle by reflexivity.
    destruct (Program.expired now (ProgramItem.data x)) eqn:Hx.
    + destruct (remove_at x w (length pre)) as (w1 & Hrun & Hi1 & _).
      { rewrite Hi. apply indexOf_first; [reflexivity|].
        by eapply distinct_not_member. }
      rewrite Hi, delete_middle in Hi1.
      assert (Hcb : Program.gc_callback now x count w = Ok (S count) w1).
      { unfold Program.gc_callback, Program.ProgramItem_remove.
        rewrite Hx, (bind_run _ _ _ _ _ Hrun). reflexivity. }
      rewrite (bind_run _ _ _ _ _ Hcb).
      assert (Hnd1 : distinct_objects (pre ++ rest)).
      { eapply distinct_sublist; [|exact Hnd].
        apply sublist_app; [done|]. by apply sublist_cons. }
      destruct rest as [|y rest].
      * exists w1. rewrite forEach_beyond by (rewrite Hi1, length_app; simpl; lia).
        simpl. rewrite Hx. split; [f_equal; lia|exact Hi1].
      * destruct (IH (pre ++ [y]) rest (S count) w1) as (w' & Hloop & Hi').
        { rewrite Hi1, <- app_assoc. reflexivity. }
        { rewrite <- app_assoc. exact Hnd1. }
        { simpl in Hlen. lia. }
        rewrite length_app, Nat.add_1_r in Hloop.
        exists w'. simpl. rewrite Hx. split.
        { rewrite Hloop. f_equal. lia. }
        rewrite Hi', <- app_assoc. reflexivity.
    + assert (Hcb : Program.gc_callback now x count w = Ok count w).
      { unfold Program.gc_callback. rewrite Hx. reflexivity. }
      rewrite (bind_run _ _ _ _ _ Hcb).
      destruct (IH (pre ++ [x]) rest count w) as (w' & Hloop & Hi').
      { rewrite Hi, <- app_assoc. reflexivity. }
      { rewrite <- app_assoc. exact Hnd. }
      { simpl in Hlen. lia. }
      rewrite length_app, Nat.add_1_r in Hloop.
      exists w'. simpl. rewrite Hx. split; [exact Hloop|].
      rewrite Hi', <- app_assoc. reflexivity.
Qed.

Lemma gc_task_exact w :
  distinct_objects (_items w) →
  ∃ w', Program.gc_task w = Ok (swept_count (clock w) (_items w)) w' ∧
        _items w' = swept (clock w) (_items w) ∧
        clock w' = clock w.
Proof.
  intros Hnd.
  destruct (gc_forEach_exact (clock w) (length (_items w)) [] (_items w) 0 w)
    as (w1 & Hloop & Hi); [reflexivity|exact Hnd|lia|].
  destruct (gc_forEach_run (clock w) (length (_items w)) 0 0 w)
    as (c & w1' & Hloop' & _ & _ & Hclk & _).
  simpl in Hloop. rewrite Hloop in Hloop'. injection Hloop' as <- <-.
  assert (Hfor : Program.items_forEach (Program.gc_callback (clock w)) 0%nat w
                 = Ok (swept_count (clock w) (_items w)) w1).
  { unfold Program.items_forEach. rewrite bind_reads. exact Hloop. }
  unfold Program.gc_task. rewrite bind_reads, (bind_run _ _ _ _ _ Hfor), bind_reads.
  eexists. split; [reflexivity|]. simpl. done.
Qed.

Lemma list_pair_ind {A} (P : list A → Prop) :
  P [] → (∀ x, P [x]) → (∀ x y l, P l → P (y :: l) → P (x :: y :: l)) →
  ∀ l, P l.
Proof.
  intros Hnil Hone Hstep l.
  assert (H : P l ∧ ∀ x, P (x :: l)); [|apply H].
  induction l as [|y l [IH1 IH2]]; [done|].
  split; [apply IH2|]. intros x. by apply Hstep.
Qed.

Lemma swept_live_cons now x l :
  Program.expired now (ProgramItem.data x) = false →
  swept now (x :: l) = x :: swept now l ∧
  swept_count now (x :: l) = swept_count now l.
Proof. intros Hx. simpl. by rewrite Hx. Qed.

Lemma swept_dead_cons now x y l :
  Program.expired now (ProgramItem.data x) = true →
  swept now (x :: y :: l) = y :: swept now l ∧
  swept_count now (x :: y :: l) = S (swept_count now l).
Proof. intros Hx. simpl. by rewrite Hx. Qed.

Lemma swept_dead_last now x :
  Program.expired now (ProgramItem.data x) = true →
  swept now [x] = [] ∧ swept_count now [x] = 1%nat.
Proof. intros Hx. simpl. by rewrite Hx. Qed.

Lemma filter_live_cons now x l :
  (Program.expired now (ProgramItem.data x) = false →
   filter (live now) (x :: l) = x :: filter (live now) l ∧
   filter (λ x, ¬ live now x) (x :: l) = filter (λ x, ¬ live now x) l) ∧
  (Program.expired now (ProgramItem.data x) = true →
   filter (live now) (x :: l) = filter (live now) l ∧
   filter (λ x, ¬ live now x) (x :: l) = x :: filter (λ x, ¬ live now x) l).
Proof.
  split; intros Hx.
  - rewrite filter_cons_True by exact Hx.
    rewrite filter_cons_False by (unfold live; rewrite Hx; by intros []). done.
  - rewrite filter_cons_False by (unfold live; by rewrite Hx).
    rewrite filter_cons_True by (unfold live; by rewrite Hx). done.
Qed.

Lemma swept_sublist now l : sublist (swept now l) l.
Proof.
  induction l as [|x|x y l IH1 IH2] using list_pair_ind.
  - done.
  - destruct (Program.expired now (ProgramItem.data x)) eqn:Hx.
    + rewrite (proj1 (swept_dead_last _ _ Hx)). by apply sublist_nil_l.
    + by rewrite (proj1 (swept_live_cons _ _ [] Hx)).
  - destruct (Program.expired now (ProgramItem.data x)) eqn:Hx.
    + rewrite (proj1 (swept_dead_cons _ _ y l Hx)).
      by apply sublist_cons, sublist_skip.
    + rewrite (proj1 (swept_live_cons _ _ (y :: l) Hx)). by apply sublist_skip.
Qed.

Lemma swept_live now l :
  filter (live now) (swept now l) = filter (live now) l.
Proof.
  induction l as [|x|x y l IH1 IH2] using list_pair_ind.
  - done.
  - destruct (Program.expired now (ProgramItem.data x)) eqn:Hx.
    + rewrite (proj1 (swept_dead_last _ _ Hx)).
      by rewrite (proj1 (proj2 (filter_live_cons now x []) Hx)).
    + by rewrite (proj1 (swept_live_cons _ _ [] Hx)).
  - destruct (Program.expired now (ProgramItem.data x)) eqn:Hx.
    + rewrite (proj1 (swept_dead_cons _ _ y l Hx)).
      rewrite (proj1 (proj2 (filter_live_cons now x (y :: l)) Hx)).
      by rewrite !(filter_cons _ y), IH1.
    + rewrite (proj1 (swept_live_cons _ _ (y :: l) Hx)).
      by rewrite !(filter_cons _ x), IH2.
Qed.

(** A sweep never adds an expired entry, deletes at least one when there
    is one, and changes nothing when there is none. *)
Lemma swept_progress now l :
  let dead l := length (filter (λ x, ¬ live now x) l) in
  (dead (swept now l) ≤ dead l)%nat ∧
  (0 < dead l → dead (swept now l) < dead l)%nat ∧
  (dead l = 0%nat → swept now l = l).
Proof.
  intros dead. subst dead.
  induction l as [|x|x y l IH1 IH2] using list_pair_ind.
  - simpl. split; [lia|]. split; [lia|done].
  - destruct (Program.expired now (ProgramItem.data x)) eqn:Hx.
    + rewrite (proj1 (swept_dead_last _ _ Hx)).
      rewrite (proj2 (proj2 (filter_live_cons now x []) Hx)). simpl.
      split; [lia|]. split; [lia|discriminate].
    + rewrite (proj1 (swept_live_cons _ _ [] Hx)).
      change (swept now []) with (@nil ProgramItem.t).
      rewrite !(proj2 (proj1 (filter_live_cons now x []) Hx)).
      split; [lia|]. split; [simpl; lia|done].
  - destruct (Program.expired now (ProgramItem.data x)) eqn:Hx.
    + rewrite (proj1 (swept_dead_cons _ _ y l Hx)).
      rewrite (proj2 (proj2 (filter_live_cons now x (y :: l)) Hx)).
      rewrite !(filter_cons _ y). destruct IH1 as (H1 & _ & _).
      destruct (decide (¬ live now y)); simpl in *;
        (split; [lia|]; split; [lia|discriminate]).
    + rewrite (proj1 (swept_live_cons _ _ (y :: l) Hx)).
      rewrite !(proj2 (proj1 (filter_live_cons now x _) Hx)).
      destruct IH2 as (H1 & H2 & H3).
      split; [exact H1|]. split; [exact H2|]. intros H0. by rewrite H3.
Qed.

Lemma swept_without_adjacent now l :
  no_adjacent_expired now l →
  swept now l = filter (live now) l ∧
  swept_count now l = length (filter (λ x, ¬ live now x) l).
Proof.
  induction l as [|x|x y l IH1 IH2] using list_pair_ind.
  - done.
  - intros _. destruct (Program.expired now (ProgramItem.data x)) eqn:Hx.
    + destruct (swept_dead_last _ _ Hx) as [-> ->].
      by destruct (proj2 (filter_live_cons now x []) Hx) as [-> ->].
    + destruct (swept_live_cons _ _ [] Hx) as [-> ->].
      by destruct (proj1 (filter_live_cons now x []) Hx) as [-> ->].
  - intros [Hxy Hrest]. pose proof (IH2 Hrest) as [Hs Hc].
    destruct (Program.expired now (ProgramItem.data x)) eqn:Hx.
    + assert (Hy : Program.expired now (ProgramItem.data y) = false).
      { destruct (Program.expired now (ProgramItem.data y)); [|done].
        by destruct Hxy. }
      destruct (swept_live_cons _ _ l Hy) as [Hsy Hcy].
      destruct (proj1 (filter_live_cons now y l) Hy) as [Hfy Hdy].
      rewrite Hsy, Hfy in Hs. rewrite Hcy, Hdy in Hc.
      destruct (swept_dead_cons _ _ y l Hx) as [-> ->].
      destruct (proj2 (filter_live_cons now x (y :: l)) Hx) as [-> ->].
      rewrite Hfy, Hdy. simpl. rewrite Hc. split; [|done].
      by injection Hs as ->.
    + destruct (swept_live_cons _ _ (y :: l) Hx) as [-> ->].
      destruct (proj1 (filter_live_cons now x (y :: l)) Hx) as [-> ->].
      by rewrite Hs, Hc.
Qed.

(** X1. Whatever the store holds, a sweep ends normally, only deletes
    entries (what is left is a subsequence of what was there), reports
    exactly the number of entries it deleted, and (objects being coherent)
    deletes no entry that is still live: the live entries are all there,
    in their order. *)
Theorem sweep_is_sound (w : World) :
  ∃ count w',
    Program.gc_task w = Ok count w' ∧
    sublist (_items w') (_items w) ∧
    (count + length (_items w') = length (_items w))%nat ∧
    (coherent (_items w) →
     filter (live (clock w)) (_items w') = filter (live (clock w)) (_items w)).
Proof. apply gc_task_run. Qed.

(** The mixed store: the running programme survives the sweep. *)
Lemma sweep_is_sound_witness :
  ∃ count w',
    Program.gc_task mixed_store = Ok count w' ∧
    (count + length (_items w') = 4)%nat ∧
    filter (live 100) (_items w') = [sample_item 2 12 0 1000].
Proof.
  destruct (sweep_is_sound mixed_store) as (count & w' & Hrun & _ & Hc & Hlive).
  exists count, w'. split; [exact Hrun|]. split; [exact Hc|].
  apply Hlive. intros x y Hx Hy Href. simpl in Hx, Hy.
  repeat (apply elem_of_cons in Hx as [->|Hx]);
    repeat (apply elem_of_cons in Hy as [->|Hy]);
    try (by apply elem_of_nil in Hx); try (by apply elem_of_nil in Hy);
    try reflexivity; discriminate.
Defined.

(** X2. The exact effect of one sweep on a store of distinct objects: going
    through the sequence, each expired entry it meets is deleted and the
    entry right after a deleted one is passed over (kept, expired or not);
    the count reported is the number of deletions. *)
Theorem sweep_exact_effect (w : World) :
  distinct_objects (_items w) →
  ∃ w', Program.gc_task w = Ok (swept_count (clock w) (_items w)) w' ∧
        _items w' = swept (clock w) (_items w).
Proof.
  intros Hnd. destruct (gc_task_exact w Hnd) as (w' & Hrun & Hi & _).
  by exists w'.
Qed.

(** The mixed store: the second ended programme is passed over, the last
    one is deleted. *)
Lemma sweep_exact_effect_witness :
  ∃ w', Program.gc_task mixed_store = Ok 2%nat w' ∧
        _items w' = [sample_item 1 11 0 10; sample_item 2 12 0 1000].
Proof.
  apply (sweep_exact_effect mixed_store). unfold distinct_objects. compute_done.
Defined.

(** X3. When no expired entry is directly followed by another expired one
    (and the entries are distinct objects), one sweep does remove exactly
    the expired entries: what is left is the live entries in their order,
    and the count is the number of expired entries. *)
Theorem sweep_complete_without_adjacent_expired (w : World) :
  distinct_objects (_items w) →
  no_adjacent_expired (clock w) (_items w) →
  ∃ w', Program.gc_task w
          = Ok (length (filter (λ x, ¬ live (clock w) x) (_items w))) w' ∧
        _items w' = filter (live (clock w)) (_items w).
Proof.
  intros Hnd Hadj. destruct (gc_task_exact w Hnd) as (w' & Hrun & Hi & _).
  destruct (swept_without_adjacent _ _ Hadj) as [Hs Hc].
  exists w'. by rewrite <- Hc, <- Hs.
Qed.

(** The alternating store: both ended programmes go. *)
Lemma sweep_complete_without_adjacent_expired_witness :
  ∃ w', Program.gc_task alternating_store = Ok 2%nat w' ∧
        _items w' = [sample_item 1 11 0 1000; sample_item 3 13 0 1000].
Proof.
  apply (sweep_complete_without_adjacent_expired alternating_store).
  - unfold distinct_objects. compute_done.
  - simpl. repeat split; intros [H1 H2]; discriminate.
Defined.

(** X4. Sweeps catch up: on a store of distinct objects, as many sweeps in
    a row as there are expired entries (or more) leave exactly the live
    entries, in their order.  An entry passed over by one sweep is deleted
    by a later one. *)
Theorem sweeps_converge (k : nat) (w : World) :
  distinct_objects (_items w) →
  (length (filter (λ x, ¬ live (clock w) x) (_items w)) ≤ k)%nat →
  ∃ w', sweeps k w = Ok tt w' ∧
        _items w' = filter (live (clock w)) (_items w).
Proof.
  revert w. induction k as [|k IH]; intros w Hnd Hk.
  - exists w. split; [reflexivity|].
    destruct (swept_progress (clock w) (_items w)) as (_ & _ & H0).
    rewrite <- (swept_live (clock w)), H0 by lia.
    symmetry. apply filter_all. intros x Hx.
    destruct (decide (live (clock w) x)) as [|Hd]; [done|].
    assert (x ∈ filter (λ x, ¬ live (clock w) x) (_items w))
      by (by apply list_elem_of_filter).
    destruct (filter _ (_items w)); [by apply elem_of_nil in H|simpl in Hk; lia].
  - destruct (gc_task_exact w Hnd) as (w1 & Hrun & Hi & Hclk).
    destruct (swept_progress (clock w) (_items w)) as (Hle & Hlt & H0).
    destruct (IH w1) as (w' & Hrest & Hi').
    { rewrite Hi. eapply distinct_sublist; [apply swept_sublist|exact Hnd]. }
    { rewrite Hclk, Hi. simpl in *. lia. }
    exists w'. simpl. rewrite (bind_run _ _ _ _ _ Hrun).
    split; [exact Hrest|]. rewrite Hi', Hclk, Hi. apply swept_live.
Qed.

(** The mixed store has three ended programmes: three sweeps leave the
    running one. *)
Lemma sweeps_converge_witness :
  ∃ w', sweeps 3 mixed_store = Ok tt w' ∧
        _items w' = [sample_item 2 12 0 1000].
Proof.
  apply (sweeps_converge 3 mixed_store).
  - unfold distinct_objects. compute_done.
  - vm_compute. lia.
Defined.

Lemma gc_forEach_quiet now n :
  ∀ k count w,
    Forall (live now) (_items w) →
    Program.forEach_loop (Program.gc_callback now) k n count w = Ok count w.
Proof.
  induction n as [|n IH]; intros k count w Hall; simpl; [reflexivity|].
  rewrite bind_reads.
  destruct (_items w !! k) as [x|] eqn:Hk; [|by apply IH].
  assert (Hx : live now x).
  { eapply Forall_forall; [exact Hall|]. by eapply list_elem_of_lookup_2. }
  assert (Hcb : Program.gc_callback now x count w = Ok count w).
  { unfold Program.gc_callback. unfold live in Hx. by rewrite Hx. }
  rewrite (bind_run _ _ _ _ _ Hcb). by apply IH.
Qed.

(** The delay of a timeout: the one asked for within [1, 2147483647], and
    1 ms outside. *)
Lemma timeout_after_spec delay :
  (1 ≤ delay ≤ 2147483647 → timeout_after delay = delay) ∧
  (delay < 1 ∨ 2147483647 < delay → timeout_after delay = 1).
Proof.
  unfold timeout_after, TIMEOUT_MAX.
  destruct (Z.leb_spec 1 delay), (Z.leb_spec delay 2147483647); simpl;
    split; intros; lia.
Qed.

(** X5. A sweep that finds nothing expired reports 0 and leaves the store,
    the pending save, the write log and the persisted records as they
    are: all it does is arm the next sweep, one GC interval after the time
    of the sweep when the interval lies within [1, 2147483647] ms, and 1 ms
    after it for any other interval. *)
Theorem sweep_without_expired (w : World) :
  Forall (live (clock w)) (_items w) →
  ∃ w' after,
    Program.gc_task w = Ok 0%nat w' ∧
    _items w' = _items w ∧
    _saveTimerId w' = _saveTimerId w ∧
    writes w' = writes w ∧ stored w' = stored w ∧
    timers w' = timers w ++ [mkTimer (timerSeq w) (clock w + after) GcCb] ∧
    (1 ≤ _programGCInterval w ≤ 2147483647 → after = _programGCInterval w) ∧
    (_programGCInterval w < 1 ∨ 2147483647 < _programGCInterval w → after = 1).
Proof.
  intros Hall.
  assert (Hfor : Program.items_forEach (Program.gc_callback (clock w)) 0%nat w
                 = Ok 0%nat w).
  { unfold Program.items_forEach. rewrite bind_reads. by apply gc_forEach_quiet. }
  unfold Program.gc_task. rewrite bind_reads, (bind_run _ _ _ _ _ Hfor), bind_reads.
  eexists. exists (timeout_after (_programGCInterval w)).
  split; [reflexivity|]. repeat (split; [reflexivity|]).
  apply timeout_after_spec.
Qed.

(** Two running programmes at time 100. *)
Lemma sweep_without_expired_witness :
  ∃ w', Program.gc_task
          (sample_world [sample_item 0 10 0 1000; sample_item 1 11 50 1000] 100)
        = Ok 0%nat w' ∧
        _items w' = [sample_item 0 10 0 1000; sample_item 1 11 50 1000] ∧
        _saveTimerId w' = None ∧
        writes w' = [] ∧ stored w' = [] ∧
        timers w' = [mkTimer 0 900100 GcCb].
Proof.
  destruct (sweep_without_expired
              (sample_world [sample_item 0 10 0 1000; sample_item 1 11 50 1000] 100))
    as (w' & after & Hrun & Hi & Hs & Hw & Hst & Ht & Hin & _).
  { repeat constructor. }
  exists w'. rewrite Ht, Hin by (simpl; lia). done.
Defined.

(** X6. Every sweep, whatever it finds and deletes, arms the next one: the
    newest pending timeout after it runs [_gc], one GC interval after the
    time of the sweep when the interval lies within [1, 2147483647] ms,
    and 1 ms after it for any other interval. *)
Theorem sweep_rearms (w : World) :
  ∃ count w' h after,
    Program.gc_task w = Ok count w' ∧
    last (timers w') = Some (mkTimer h (clock w + after) GcCb) ∧
    (1 ≤ _programGCInterval w ≤ 2147483647 → after = _programGCInterval w) ∧
    (_programGCInterval w < 1 ∨ 2147483647 < _programGCInterval w → after = 1).
Proof.
  destruct (gc_forEach_run (clock w) (length (_items w)) 0 0 w)
    as (c & w1 & Hloop & _ & _ & Hclk & Hint & _).
  assert (Hfor : Program.items_forEach (Program.gc_callback (clock w)) 0%nat w
                 = Ok c w1).
  { unfold Program.items_forEach. rewrite bind_reads. exact Hloop. }
  exists c. eexists. exists (timerSeq w1), (timeout_after (_programGCInterval w)).
  split.
  { unfold Program.gc_task.
    rewrite bind_reads, (bind_run _ _ _ _ _ Hfor), bind_reads. reflexivity. }
  split; [|apply timeout_after_spec].
  simpl. rewrite last_snoc, Hclk, Hint. reflexivity.
Qed.

(** A store configured with an interval of 3000000000 ms, beyond what a
    timeout can wait: the next sweep is due 1 ms after this one. *)
Lemma sweep_rearms_witness :
  ∃ count w' h,
    Program.gc_task (set_programGCInterval 3000000000 two_expired) = Ok count w' ∧
    last (timers w') = Some (mkTimer h 101 GcCb).
Proof.
  destruct (sweep_rearms (set_programGCInterval 3000000000 two_expired))
    as (count & w' & h & after & Hrun & Hlast & _ & Hout).
  exists count, w', h. split; [exact Hrun|].
  rewrite Hlast, Hout by (simpl; lia). reflexivity.
Defined.

(** ** Lookups after changes *)

Lemma first_with_id_app id l k :
  first_with_id id (l ++ k)
  = match first_with_id id l with
    | Some x => Some x
    | None => first_with_id id k
    end.
Proof.
  induction l as [|x l IH]; simpl; [reflexivity|].
  destruct (decide (ProgramItem.id x = id)); [reflexivity|exact IH].
Qed.

(** X7. [get] and missing keys: when no entry has the [id], [get] returns
    [null] and [exists] returns [false], without any error; when some entry
    has it, [get] returns an entry of the store with that [id] and [exists]
    returns [true]. *)
Theorem get_finds_or_null (w : World) (id : Z) :
  (¬ has_id id (_items w) →
   Program.get id w = Ok None w ∧ Program.exists_ id w = Ok false w) ∧
  (has_id id (_items w) →
   ∃ x, Program.get id w = Ok (Some x) w ∧ x ∈ _items w ∧
        ProgramItem.id x = id ∧ Program.exists_ id w = Ok true w).
Proof.
  rewrite get_run, exists_run. split.
  - intros H. apply first_with_id_None in H. rewrite H. done.
  - intros H. destruct (first_with_id id (_items w)) as [x|] eqn:E.
    + apply first_with_id_Some in E as [Hx Hid]. exists x. done.
    + apply first_with_id_None in E. contradiction.
Qed.

(** The two-programme store: 12 is missing, 11 is there. *)
Lemma get_finds_or_null_witness :
  (Program.get 12 two_expired = Ok None two_expired ∧
   Program.exists_ 12 two_expired = Ok false two_expired) ∧
  ∃ x, Program.get 11 two_expired = Ok (Some x) two_expired ∧
       x ∈ _items two_expired ∧ ProgramItem.id x = 11 ∧
       Program.exists_ 11 two_expired = Ok true two_expired.
Proof.
  split.
  - apply (proj1 (get_finds_or_null two_expired 12)).
    intros (x & Hx & Hid). simpl in Hx.
    repeat (apply elem_of_cons in Hx as [->|Hx]); try discriminate.
    by apply elem_of_nil in Hx.
  - apply (proj2 (get_finds_or_null two_expired 11)).
    exists (sample_item 1 11 0 10). split; [right; left|reflexivity].
Defined.

Lemma add_then_get_run (w : World) (e : ProgramItem.t) :
  ∃ w' x,
    Program.add e w = Ok tt w' ∧
    Program.get (ProgramItem.id e) w' = Ok (Some x) w' ∧
    ProgramItem.id x = ProgramItem.id e ∧
    Program.exists_ (ProgramItem.id e) w' = Ok true w' ∧
    (¬ has_id (ProgramItem.id e) (_items w) → x = e) ∧
    (has_id (ProgramItem.id e) (_items w) → x ∈ _items w).
Proof.
  destruct (first_with_id (ProgramItem.id e) (_items w)) as [x|] eqn:E.
  - pose proof (first_with_id_Some _ _ _ E) as [Hx Hid].
    exists w, x. rewrite add_present by (by exists x).
    rewrite get_run, exists_run, E. split; [done|]. split; [done|].
    split; [done|]. split; [done|]. split; [|done].
    intros H. destruct H. by exists x.
  - pose proof E as E'. apply first_with_id_None in E'.
    destruct (add_fresh e w E') as (w' & Hrun & Hi & _).
    exists w', e. rewrite get_run, exists_run, Hi, first_with_id_app, E.
    simpl. rewrite decide_True by reflexivity. done.
Qed.

(** X8. Insert, then look up: after [add(e)], [get(e.id)] returns an entry
    with [e]'s [id] and [exists(e.id)] is [true]; the entry returned is [e]
    itself when the [id] was free, and the entry that already had the [id]
    otherwise (the first one wins). *)
Theorem add_then_get (w : World) (e : ProgramItem.t) :
  ∃ w' x,
    Program.add e w = Ok tt w' ∧
    Program.get (ProgramItem.id e) w' = Ok (Some x) w' ∧
    ProgramItem.id x = ProgramItem.id e ∧
    Program.exists_ (ProgramItem.id e) w' = Ok true w' ∧
    (¬ has_id (ProgramItem.id e) (_items w) → x = e) ∧
    (has_id (ProgramItem.id e) (_items w) → x ∈ _items w).
Proof. apply add_then_get_run. Qed.

(** Adding a third programme under the free [id] 12. *)
Lemma add_then_get_witness :
  ∃ w',
    Program.add (sample_item 7 12 500 60) two_expired = Ok tt w' ∧
    Program.get 12 w' = Ok (Some (sample_item 7 12 500 60)) w'.
Proof.
  destruct (add_then_get two_expired (sample_item 7 12 500 60))
    as (w' & x & Hadd & Hget & _ & _ & Hfresh & _).
  exists w'. split; [exact Hadd|].
  rewrite <- Hfresh; [exact Hget|].
  intros (y & Hy & Hid). simpl in Hy.
  repeat (apply elem_of_cons in Hy as [->|Hy]); try discriminate.
  by apply elem_of_nil in Hy.
Defined.

(** X9. [add] is idempotent: adding the same entry twice in a row ends in
    the state the first [add] ends in (the second call changes nothing and
    requests no further save). *)
Theorem add_twice (w : World) (e : ProgramItem.t) :
  (Program.add e;; Program.add e) w = Program.add e w.
Proof.
  destruct (add_then_get_run w e) as (w' & x & Hadd & Hget & Hid & _).
  rewrite (bind_run _ _ _ _ _ Hadd), Hadd.
  apply add_present. rewrite get_run in Hget. injection Hget as Hget.
  apply first_with_id_Some in Hget as [Hx _]. by exists x.
Qed.

(** X10. Delete, then look up: in a store with unique ids whose objects are
    coherent, after [remove(e)] of an entry [e] of the store, [get(e.id)]
    returns [null], [exists(e.id)] is [false], and the store holds exactly
    the other entries. *)
Theorem remove_then_get (w : World) (e : ProgramItem.t) :
  e ∈ _items w → coherent (_items w) → unique_ids w →
  ∃ w',
    Program.remove e w = Ok tt w' ∧
    Program.get (ProgramItem.id e) w' = Ok None w' ∧
    Program.exists_ (ProgramItem.id e) w' = Ok false w' ∧
    (∀ x, x ∈ _items w' ↔ x ∈ _items w ∧ x ≠ e).
Proof.
  intros He Hcoh Huniq.
  destruct (member_split e (_items w)) as (l1 & y & l2 & Hl & Hy & Hl1);
    [by exists e|].
  assert (y = e) as ->.
  { apply Hcoh; [|exact He|exact Hy]. rewrite Hl. apply elem_of_app. right. left. }
  destruct (remove_present e w l1 e l2 Hl Hy Hl1) as (w' & Hrun & Hi & _).
  unfold unique_ids in Huniq. rewrite Hl, fmap_app, fmap_cons in Huniq.
  apply NoDup_app in Huniq as (_ & Hdis & Hnd2).
  apply NoDup_cons in Hnd2 as [Hnot2 _].
  assert (Hnone : ¬ has_id (ProgramItem.id e) (l1 ++ l2)).
  { intros (x & [Hx|Hx]%elem_of_app & Hid).
    - apply (Hdis (ProgramItem.id x)); [by apply list_elem_of_fmap_2|].
      rewrite Hid. left.
    - apply Hnot2. rewrite <- Hid. by apply list_elem_of_fmap_2. }
  exists w'. split; [exact Hrun|].
  rewrite get_run, exists_run, Hi.
  rewrite (proj2 (first_with_id_None _ _) Hnone).
  split; [done|]. split; [done|]. intros x. rewrite Hl, !elem_of_app, elem_of_cons.
  split.
  - intros Hx. split; [tauto|]. intros ->. apply Hnone. exists e.
    split; [by apply elem_of_app|done].
  - intros [[?|[?|?]] Hne]; [by left|done|by right].
Qed.

(** Removing the second programme of the two-programme store. *)
Lemma remove_then_get_witness :
  ∃ w',
    Program.remove (sample_item 1 11 0 10) two_expired = Ok tt w' ∧
    Program.get 11 w' = Ok None w' ∧
    Program.exists_ 11 w' = Ok false w' ∧
    (∀ x, x ∈ _items w' ↔ x ∈ _items two_expired ∧ x ≠ sample_item 1 11 0 10).
Proof.
  apply (remove_then_get two_expired (sample_item 1 11 0 10)).
  - right. left.
  - intros x y Hx Hy Href. simpl in Hx, Hy.
    repeat (apply elem_of_cons in Hx as [->|Hx]);
      repeat (apply elem_of_cons in Hy as [->|Hy]);
      try (by apply elem_of_nil in Hx); try (by apply elem_of_nil in Hy);
      try reflexivity; discriminate.
  - unfold unique_ids. compute_done.
Defined.

(** X11. A newly added entry shows up in the queries that match it, as
    their last result, and in no other: after [add(e)] under a free [id],
    [findByServiceId] and [findConflicts] return what they returned before,
    followed by [e] when [e] matches. *)
Theorem add_then_query (w : World) (e : ProgramItem.t)
    (networkId serviceId start end_ : Z) :
  ¬ has_id (ProgramItem.id e) (_items w) →
  ∃ w',
    Program.add e w = Ok tt w' ∧
    Program.findByServiceId serviceId w'
      = Ok (filter (of_service serviceId) (_items w)
            ++ (if decide (of_service serviceId e) then [e] else [])) w' ∧
    Program.findConflicts networkId serviceId start end_ w'
      = Ok (filter (in_window networkId serviceId start end_) (_items w)
            ++ (if decide (in_window networkId serviceId start end_ e)
                then [e] else [])) w'.
Proof.
  intros Hfresh. destruct (add_fresh e w Hfresh) as (w' & Hrun & Hi & _).
  exists w'. split; [exact Hrun|].
  rewrite findByServiceId_run, findConflicts_run, Hi, !filter_app.
  rewrite !filter_cons, !filter_nil.
  split; f_equal; f_equal; by destruct (decide _).
Qed.

(** A programme of service 2 starting at 500 joins the two-programme
    store. *)
Lemma add_then_query_witness :
  ∃ w',
    Program.add (sample_item 7 12 500 60) two_expired = Ok tt w' ∧
    Program.findByServiceId 2 w'
      = Ok [sample_item 0 10 0 10; sample_item 1 11 0 10;
            sample_item 7 12 500 60] w' ∧
    Program.findConflicts 1 2 100 1000 w' = Ok [sample_item 7 12 500 60] w'.
Proof.
  apply (add_then_query two_expired (sample_item 7 12 500 60) 1 2 100 1000).
  intros (y & Hy & Hid). simpl in Hy.
  repeat (apply elem_of_cons in Hy as [->|Hy]); try discriminate.
  by apply elem_of_nil in Hy.
Defined.

(** ** Persistence *)

Lemma run_timers_stored until n :
  ∀ w, ∃ w', run_timers n until w = Ok tt w' ∧
             _items w' = _items w ∧ stored_follows w w'.
Proof.
  induction n as [|n IH]; intros w; simpl.
  { exists w. split; [done|]. split; [done|]. by left. }
  rewrite bind_reads.
  destruct (next_due (timers w)) as [t|];
    [|exists w; split; [done|]; split; [done|]; by left].
  destruct (due t <=? until);
    [|exists w; split; [done|]; split; [done|]; by left].
  destruct (cb t) eqn:Hcb.
  - rewrite (bind_run _ _ _ _ _ (fire_save t w Hcb)).
    set (w1 := set_writes _ _).
    destruct (IH w1) as (w' & Hrun & Hi & Hst).
    exists w'. split; [exact Hrun|]. split; [exact Hi|]. right.
    destruct Hst as [[Hw Hs]|Hst]; [|exact Hst].
    rewrite Hw, Hs. simpl. eauto.
  - rewrite (bind_run _ _ _ _ _ (fire_gc t w Hcb)).
    set (w1 := set_queued _ _).
    destruct (IH w1) as (w' & Hrun & Hi & Hst).
    exists w'. split; [exact Hrun|]. split; [exact Hi|]. exact Hst.
Qed.

Lemma advance_stored dt w :
  ∃ w', advance dt w = Ok tt w' ∧ _items w' = _items w ∧ stored_follows w w'.
Proof.
  destruct (run_timers_stored (clock w + dt) (length (timers w)) w)
    as (w1 & Hrun & Hi & Hst).
  unfold advance. rewrite !bind_reads, (bind_run _ _ _ _ _ Hrun).
  eexists. split; [reflexivity|]. split; [exact Hi|]. exact Hst.
Qed.

(** Once a save has been requested, [dt ≥ 3000] ms of quiet bring the
    store to the database. *)
Lemma scheduled_then_quiet w w1 dt :
  timers_wf w → debounced_save_scheduled w w1 → 3000 ≤ dt →
  ∃ w2, advance dt w1 = Ok tt w2 ∧
        writes w2 = writes w
          ++ [(clock w + 3000, ProgramItem.data <$> _items w1)] ∧
        stored w2 = ProgramItem.data <$> _items w1.
Proof.
  intros Hwf Hs Hdt.
  pose proof (scheduled_wf w w1 Hwf Hs) as Hwf1.
  destruct Hs as (Hid & Ht & _ & Hclk & Hw & _).
  destruct (advance_fires w1 (clock w + 3000) dt) as (w2 & Hadv & Hw2 & _);
    [exact Hwf1| |lia|lia|].
  { exists (timerSeq w). split; [exact Hid|]. rewrite Ht.
    apply elem_of_app. right. left. }
  destruct (advance_stored dt w1) as (w2' & Hadv' & _ & Hst).
  rewrite Hadv in Hadv'. injection Hadv' as <-.
  exists w2. split; [exact Hadv|]. rewrite Hw2, Hw. split; [done|].
  destruct Hst as [[Hsame _]|(ws & t & Hlast)].
  - rewrite Hw2 in Hsame. apply (f_equal length) in Hsame.
    rewrite length_app in Hsame. simpl in Hsame. lia.
  - rewrite Hw2 in Hlast. apply app_inj_tail in Hlast as [_ Hlast].
    by injection Hlast.
Qed.

(** X12. A change reaches the database: in a store whose timer table is
    well formed, [add(e)] under a free [id], or [remove(e)] of an entry,
    writes nothing at once, and after at least 3000 ms without further
    requests exactly one write has happened, 3000 ms after the call, and
    the persisted records are [items.map(data)] of the changed store. *)
Theorem change_reaches_db (w : World) (e : ProgramItem.t) (dt : Z) :
  timers_wf w → 3000 ≤ dt →
  (¬ has_id (ProgramItem.id e) (_items w) →
   ∃ w1 w2,
     Program.add e w = Ok tt w1 ∧ writes w1 = writes w ∧
     advance dt w1 = Ok tt w2 ∧
     writes w2 = writes w
       ++ [(clock w + 3000, ProgramItem.data <$> (_items w ++ [e]))] ∧
     stored w2 = ProgramItem.data <$> (_items w ++ [e])) ∧
  (∀ i, indexOf (_items w) e = Some i →
   ∃ w1 w2,
     Program.remove e w = Ok tt w1 ∧ writes w1 = writes w ∧
     advance dt w1 = Ok tt w2 ∧
     writes w2 = writes w
       ++ [(clock w + 3000, ProgramItem.data <$> delete i (_items w))] ∧
     stored w2 = ProgramItem.data <$> delete i (_items w)).
Proof.
  intros Hwf Hdt. split.
  - intros Hfresh. destruct (add_fresh e w Hfresh) as (w1 & Hrun & Hi & Hs).
    destruct (scheduled_then_quiet w w1 dt Hwf Hs Hdt) as (w2 & Hadv & Hw & Hst).
    exists w1, w2. rewrite Hi in Hw, Hst.
    destruct Hs as (_ & _ & _ & _ & Hw1 & _). done.
  - intros i Hidx. destruct (remove_at e w i Hidx) as (w1 & Hrun & Hi & Hs).
    destruct (scheduled_then_quiet w w1 dt Hwf Hs Hdt) as (w2 & Hadv & Hw & Hst).
    exists w1, w2. rewrite Hi in Hw, Hst.
    destruct Hs as (_ & _ & _ & _ & Hw1 & _). done.
Qed.

(** Removing the first programme of the two-programme store, then five
    seconds of quiet. *)
Lemma change_reaches_db_witness :
  ∃ w1 w2,
    Program.remove (sample_item 0 10 0 10) two_expired = Ok tt w1 ∧
    writes w1 = [] ∧
    advance 5000 w1 = Ok tt w2 ∧
    writes w2 = [(3100, [sample_data 0 10])] ∧
    stored w2 = [sample_data 0 10].
Proof.
  refine (proj2 (change_reaches_db two_expired (sample_item 0 10 0 10) 5000 _ _)
            0%nat _).
  - split; [apply NoDup_nil_2|].
    split; intros t Ht; by apply elem_of_nil in Ht.
  - lia.
  - reflexivity.
Defined.

Lemma foldl_register_fresh es :
  ∀ its, NoDup (ProgramItem.id <$> (its ++ es)) →
         foldl register its es = its ++ es.
Proof.
  induction es as [|e es IH]; intros its Hnd; simpl.
  - by rewrite app_nil_r.
  - assert (Hreg : register its e = its ++ [e]).
    { unfold register.
      destruct (first_with_id (ProgramItem.id e) its) as [x|] eqn:E; [|done].
      apply first_with_id_Some in E as [Hx Hid].
      rewrite fmap_app, fmap_cons in Hnd.
      apply NoDup_app in Hnd as (_ & Hdis & _).
      destruct (Hdis (ProgramItem.id x)); [by apply list_elem_of_fmap_2|].
      rewrite Hid. left. }
    rewrite Hreg, IH, <- app_assoc; [done|].
    by rewrite <- app_assoc.
Qed.

Lemma entries_of_fmap entryId rs :
  ∀ base,
    ProgramItem.data <$> entries_of entryId base rs = rs ∧
    ProgramItem.id <$> entries_of entryId base rs = entryId <$> rs.
Proof.
  induction rs as [|r rs IH]; intros base; cbn [entries_of]; [done|].
  rewrite !fmap_cons. destruct (IH (S base)) as [-> ->]. done.
Qed.

Lemma add_keeps_clock e w :
  ∃ w', Program.add e w = Ok tt w' ∧ clock w' = clock w ∧
        _programGCInterval w' = _programGCInterval w.
Proof.
  destruct (first_with_id (ProgramItem.id e) (_items w)) as [x|] eqn:E.
  - exists w. split; [|done]. apply add_present.
    apply first_with_id_Some in E. by exists x.
  - apply first_with_id_None in E.
    destruct (add_fresh e w E) as (w' & Hrun & _ & Hs).
    destruct Hs as (_ & _ & _ & Hc & _ & _ & _ & _ & Hint). by exists w'.
Qed.

Lemma load_forEach_keeps_clock entryId now programs :
  ∀ dropped w dropped' w',
    Program.load_forEach entryId now programs dropped w = Ok dropped' w' →
    clock w' = clock w ∧ _programGCInterval w' = _programGCInterval w.
Proof.
  induction programs as [|r rs IH]; intros dropped w dropped' w';
    cbn [Program.load_forEach].
  - by intros [= _ <-].
  - destruct (js_is_undefined _); [by apply IH|].
    destruct (js_gt _ _); [by apply IH|].
    set (this := ProgramItem.mk (length (objects w)) (entryId r) r).
    destruct (add_keeps_clock this (set_objects (λ os, os ++ [this]) w))
      as (w1 & Hrun & Hc & Hint).
    assert (Hnew : Program.new_ProgramItem entryId r true w = Ok this w1).
    { unfold Program.new_ProgramItem. rewrite bind_reads, bind_modify.
      fold this. rewrite (bind_run _ _ _ _ _ Hrun). reflexivity. }
    rewrite (bind_run _ _ _ _ _ Hnew). intros H.
    destruct (IH _ _ _ _ H) as [-> ->]. done.
Qed.

Lemma load_keeps_clock entryId w :
  ∃ w', Program._load entryId w = Ok tt w' ∧
        _items w' = foldl register (_items w)
          (entries_of entryId (length (objects w))
             (filter (kept_by_load (clock w)) (stored w))) ∧
        clock w' = clock w ∧ _programGCInterval w' = _programGCInterval w.
Proof.
  destruct (load_forEach_run entryId (clock w) (stored w) false w)
    as (w1 & Hrun & _ & Hi & _).
  destruct (load_forEach_keeps_clock _ _ _ _ _ _ _ Hrun) as [Hc Hint].
  unfold Program._load. rewrite !bind_reads, (bind_run _ _ _ _ _ Hrun).
  destruct (_ || _).
  - destruct (save_run w1) as (w' & Hsave & Hs & Hi').
    destruct Hs as (_ & _ & _ & Hc' & _ & _ & _ & _ & Hint').
    exists w'. split; [exact Hsave|]. split; [congruence|]. split; congruence.
  - exists w1. done.
Qed.

Lemma constructor_run entryId now programs cfg :
  ∃ w' h,
    Program.constructor entryId (boot now programs cfg) = Ok tt w' ∧
    _items w' = foldl register []
      (entries_of entryId 0 (filter (kept_by_load now) programs)) ∧
    _programGCInterval w' = js_or cfg 900000 ∧
    last (timers w')
      = Some (mkTimer h (now + timeout_after (js_or cfg 900000)) GcCb).
Proof.
  unfold Program.constructor.
  rewrite !bind_modify, bind_reads, bind_modify.
  match goal with |- context [ (Program._load entryId ≫= _) ?w0 ] =>
    destruct (load_keeps_clock entryId w0) as (w1 & Hrun & Hi & Hc & Hint)
  end.
  simpl in Hi, Hc, Hint.
  rewrite (bind_run _ _ _ _ _ Hrun), bind_reads.
  eexists. exists (timerSeq w1). split; [reflexivity|]. simpl.
  split; [exact Hi|]. split; [exact Hint|].
  rewrite last_snoc, Hc, Hint. reflexivity.
Qed.

(** X13. What is saved is what is loaded: [_save] hands [items.map(data)]
    to the database and leaves the store alone; a new [Program] started
    later on those records, none of which is dropped by the load and which
    get distinct ids, holds entries with the very same data, in the same
    order. *)
Theorem save_then_load (entryId : db.Program → Z) (w : World)
    (later : Z) (cfg : value) :
  Forall (kept_by_load later) (ProgramItem.data <$> _items w) →
  NoDup (entryId <$> (ProgramItem.data <$> _items w)) →
  ∃ w1 w2,
    Program._save w = Ok tt w1 ∧
    _items w1 = _items w ∧
    stored w1 = ProgramItem.data <$> _items w ∧
    Program.constructor entryId (boot later (stored w1) cfg) = Ok tt w2 ∧
    ProgramItem.data <$> _items w2 = ProgramItem.data <$> _items w.
Proof.
  intros Hkept Hnd. eexists.
  destruct (constructor_run entryId later (ProgramItem.data <$> _items w) cfg)
    as (w2 & h & Hrun & Hi & _).
  exists w2. split; [reflexivity|]. simpl. split; [done|]. split; [done|].
  split; [exact Hrun|].
  rewrite Hi, filter_all by (by apply Forall_forall).
  rewrite foldl_register_fresh.
  - apply entries_of_fmap.
  - simpl. by rewrite (proj2 (entries_of_fmap _ _ _)).
Qed.

(** The guide store, saved at 100 and loaded at 200. *)
Lemma save_then_load_witness :
  ∃ w1 w2,
    Program._save guide_store = Ok tt w1 ∧
    _items w1 = _items guide_store ∧
    stored w1 = ProgramItem.data <$> _items guide_store ∧
    Program.constructor packed_id (boot 200 (stored w1) Undefined) = Ok tt w2 ∧
    ProgramItem.data <$> _items w2 = ProgramItem.data <$> _items guide_store.
Proof.
  apply (save_then_load packed_id guide_store 200 Undefined); compute_done.
Defined.

(** ** A new store, and every state after it *)

(** X14. [new Program()] ends normally with the first sweep armed.  The
    interval kept in the field is the configured [programGCInterval], or
    900000 ms when that is absent, [NaN] or 0; any other configured number,
    a negative one included, is kept as it is.  The first sweep is due
    900000 ms after the start in the first case, the configured number of
    ms after the start when that lies within [1, 2147483647], and 1 ms
    after the start for a negative or larger number. *)
Theorem new_Program_arms_gc (entryId : db.Program → Z) (now : Z)
    (programs : list db.Program) (cfg : value) :
  ∃ w' h after,
    Program.constructor entryId (boot now programs cfg) = Ok tt w' ∧
    last (timers w') = Some (mkTimer h (now + after) GcCb) ∧
    (cfg = Undefined ∨ cfg = NaN ∨ cfg = Num 0 →
     _programGCInterval w' = 900000 ∧ after = 900000) ∧
    (∀ z, cfg = Num z → z ≠ 0 → _programGCInterval w' = z) ∧
    (∀ z, cfg = Num z → 1 ≤ z ≤ 2147483647 → after = z) ∧
    (∀ z, cfg = Num z → z < 0 ∨ 2147483647 < z → after = 1).
Proof.
  destruct (constructor_run entryId now programs cfg) as (w' & h & Hrun & _ & Hint & Hl).
  exists w', h, (timeout_after (js_or cfg 900000)). rewrite Hint.
  split; [exact Hrun|]. split; [exact Hl|]. split; [|split; [|split]].
  - intros [->|[->| ->]]; split; reflexivity.
  - intros z -> Hz. destruct z; [done|reflexivity..].
  - intros z -> Hz. destruct z; [lia|by apply timeout_after_spec..].
  - intros z -> Hz. destruct z; [lia|apply timeout_after_spec; simpl; lia..].
Qed.

(** Nothing persisted and -5 configured: the field keeps -5, and the first
    sweep is due 1 ms after the start at 5. *)
Lemma new_Program_arms_gc_witness :
  ∃ w' h,
    Program.constructor packed_id (boot 5 [] (Num (-5))) = Ok tt w' ∧
    last (timers w') = Some (mkTimer h 6 GcCb) ∧
    _programGCInterval w' = -5.
Proof.
  destruct (new_Program_arms_gc packed_id 5 [] (Num (-5)))
    as (w' & h & after & Hrun & Hl & _ & Hf & _ & Hout).
  exists w', h. split; [exact Hrun|].
  rewrite Hl, (Hout (-5)) by (reflexivity || lia).
  split; [reflexivity|]. by apply Hf.
Defined.

Lemma wf_one_pending_save w :
  timers_wf w → (length (pending_saves w) ≤ 1)%nat.
Proof.
  intros (Hnd & _ & Hsave). unfold pending_saves.
  assert (Hsub : sublist (filter (λ t, cb t = SaveCb) (timers w)) (timers w))
    by apply sublist_filter.
  pose proof (NoDup_handles_sublist _ _ Hsub Hnd) as Hnd'.
  assert (Hall : ∀ t, t ∈ filter (λ t, cb t = SaveCb) (timers w) →
                      _saveTimerId w = Some (tid t)).
  { intros t [Hcb Ht]%list_elem_of_filter. by apply Hsave. }
  destruct (filter _ (timers w)) as [|a [|b l]]; simpl; [lia..|].
  exfalso. rewrite !fmap_cons in Hnd'.
  apply NoDup_cons in Hnd' as [Hnot _]. apply Hnot.
  assert (tid a = tid b) as ->.
  { pose proof (Hall a ltac:(left)) as Ha.
    pose proof (Hall b ltac:(right; left)) as Hb. congruence. }
  left.
Qed.

Lemma advance_unique dt w :
  unique_ids w → ∃ w', advance dt w = Ok tt w' ∧ unique_ids w'.
Proof.
  intros H. destruct (advance_stored dt w) as (w' & Hrun & Hi & _).
  exists w'. split; [exact Hrun|]. unfold unique_ids. by rewrite Hi.
Qed.

Lemma act_keeps_invariants a w :
  unique_ids w → timers_wf w →
  ∃ w', act a w = Ok tt w' ∧ unique_ids w' ∧ timers_wf w'.
Proof.
  intros Hu Hwf. destruct a as [|e|e| |dt]; simpl.
  - destruct (save_wf w Hwf) as (w' & Hrun & Hwf' & _ & _ & Hi & _).
    exists w'. split; [exact Hrun|]. split; [|exact Hwf'].
    unfold unique_ids. by rewrite Hi.
  - destruct (add_unique e w Hu) as (w' & Hrun & Hu').
    destruct (add_wf e w Hwf) as (w'' & Hrun' & Hwf').
    rewrite Hrun in Hrun'. injection Hrun' as <-. by exists w'.
  - destruct (remove_unique e w Hu) as (w' & Hrun & Hu').
    destruct (remove_wf e w Hwf) as (w'' & Hrun' & Hwf').
    rewrite Hrun in Hrun'. injection Hrun' as <-. by exists w'.
  - destruct (gc_unique w Hu) as (c & w' & Hrun & Hu').
    destruct (gc_task_wf w Hwf) as (c' & w'' & Hrun' & Hwf').
    rewrite Hrun in Hrun'. injection Hrun' as <- <-.
    exists w'. rewrite (bind_run _ _ _ _ _ Hrun). done.
  - destruct (advance_unique dt w Hu) as (w' & Hrun & Hu').
    destruct (advance_wf dt w Hwf) as (w'' & Hrun' & Hwf').
    rewrite Hrun in Hrun'. injection Hrun' as <-. by exists w'.
Qed.

Lemma acts_keep_invariants l :
  ∀ w, unique_ids w → timers_wf w →
       ∃ w', acts l w = Ok tt w' ∧ unique_ids w' ∧ timers_wf w'.
Proof.
  induction l as [|a l IH]; intros w Hu Hwf; simpl; [by exists w|].
  destruct (act_keeps_invariants a w Hu Hwf) as (w1 & Hrun & Hu1 & Hwf1).
  rewrite (bind_run _ _ _ _ _ Hrun). by apply IH.
Qed.

(** X15. Whatever is persisted and configured, and whatever is then done
    with the store (save requests, adds, removes, sweeps, waiting, in any
    order), nothing ever raises an error, no two entries of the store have
    the same [id], and at most one save is pending. *)
Theorem always_consistent (entryId : db.Program → Z) (now : Z)
    (programs : list db.Program) (cfg : value) (l : list action) :
  ∃ w',
    (Program.constructor entryId;; acts l) (boot now programs cfg) = Ok tt w' ∧
    unique_ids w' ∧
    (length (pending_saves w') ≤ 1)%nat.
Proof.
  destruct (constructor_unique entryId now programs cfg) as (w0 & Hrun & Hu).
  destruct (constructor_wf entryId now programs cfg) as (w0' & Hrun' & Hwf).
  rewrite Hrun in Hrun'. injection Hrun' as <-.
  destruct (acts_keep_invariants l w0 Hu Hwf) as (w' & Hacts & Hu' & Hwf').
  exists w'. rewrite (bind_run _ _ _ _ _ Hrun).
  split; [exact Hacts|]. split; [exact Hu'|]. by apply wf_one_pending_save.
Qed.

(** ** The identifier packing, further *)

(** The packed number with the network identifier 0 allowed. *)
Lemma getProgramId_packed_from_zero n s e :
  0 ≤ n ≤ 900718 → 0 ≤ s < 100000 → 0 ≤ e < 100000 →
  Program.getProgramId n s e = Num (n * 10000000000 + s * 100000 + e).
Proof.
  intros Hn Hs He. rewrite getProgramId_value by lia.
  rewrite to_double_exact; [reflexivity|].
  change (2 ^ 53) with 9007199254740992. lia.
Qed.

(** X16. The packed identifier can be taken apart again: for a network
    identifier from 0 to 900718 and service and event identifiers below
    100000, the three fields are the quotient by [10^10], the next five
    decimal digits and the last five decimal digits of the identifier. *)
Theorem getProgramId_unpacks (n s e : Z) :
  0 ≤ n ≤ 900718 → 0 ≤ s < 100000 → 0 ≤ e < 100000 →
  ∃ i, Program.getProgramId n s e = Num i ∧
       i / 10000000000 = n ∧
       i / 100000 mod 100000 = s ∧
       i mod 100000 = e.
Proof.
  intros Hn Hs He. rewrite getProgramId_packed_from_zero by done.
  eexists. split; [reflexivity|].
  repeat split; divlia.
Qed.

(** The fields of the specification's example under the network
    identifier 0, taken apart. *)
Lemma getProgramId_unpacks_witness :
  ∃ i, Program.getProgramId 0 1024 40085 = Num i ∧
       i / 10000000000 = 0 ∧
       i / 100000 mod 100000 = 1024 ∧
       i mod 100000 = 40085.
Proof. apply (getProgramId_unpacks 0 1024 40085); lia. Defined.

(** X17. Identifiers sort like their fields: for network identifiers
    from 0 to 900718 and service and event identifiers below 100000, one
    identifier is below another exactly when its (network, service, event)
    triple comes first in lexicographic order. *)
Theorem getProgramId_order (n s e n' s' e' : Z) :
  0 ≤ n ≤ 900718 → 0 ≤ s < 100000 → 0 ≤ e < 100000 →
  0 ≤ n' ≤ 900718 → 0 ≤ s' < 100000 → 0 ≤ e' < 100000 →
  ∃ i i',
    Program.getProgramId n s e = Num i ∧
    Program.getProgramId n' s' e' = Num i' ∧
    (i < i' ↔ n < n' ∨ (n = n' ∧ (s < s' ∨ (s = s' ∧ e < e')))).
Proof.
  intros Hn Hs He Hn' Hs' He'.
  rewrite !getProgramId_packed_from_zero by done.
  eexists _, _. split; [reflexivity|]. split; [reflexivity|]. lia.
Qed.

(** Under the network identifier 0, a later event of the same service has
    the larger identifier. *)
Lemma getProgramId_order_witness :
  ∃ i i',
    Program.getProgramId 0 1024 40085 = Num i ∧
    Program.getProgramId 0 1024 40086 = Num i' ∧
    (i < i' ↔ 0 < 0 ∨ (0 = 0 ∧
               (1024 < 1024 ∨ (1024 = 1024 ∧ 40085 < 40086)))).
Proof.
  apply (getProgramId_order 0 1024 40085 0 1024 40086); lia.
Defined.

(** The division by 100000 and the rounding of [toFixed(5)] are exact for
    every field of at most six digits, of either sign. *)
Lemma nearest_scaled_div_abs s :
  Z.abs s < 1000000 →
  nearest_scaled 5 (js_div s 100000) = Z.abs s ∧
  (mant (js_div s 100000) <? 0) = (s <? 0).
Proof.
  intros Hs. unfold js_div.
  destruct (s =? 0) eqn:E0; [apply Z.eqb_eq in E0; subst s; done|].
  apply Z.eqb_neq in E0.
  set (x := Z.abs s) in *. assert (Hx : 0 < x) by (subst x; lia).
  change (Z.log2 100000) with 16.
  assert (Hlog : 0 ≤ Z.log2 x < 20).
  { split; [apply Z.log2_nonneg|]. apply Z.log2_lt_pow2; lia. }
  set (e0 := Z.log2 x - 16 - 52).
  set (reach := if 0 <=? e0 then _ else _).
  set (e := if reach then e0 else e0 - 1).
  assert (He : e ≤ -49) by (subst e; destruct reach; lia).
  clearbody e. clear reach.
  rewrite (proj2 (Z.leb_gt 0 e)) by lia.
  unfold nearest_scaled. cbn [mant expo].
  rewrite (proj2 (Z.leb_gt 0 e)) by lia.
  set (P := 2 ^ (- e)).
  assert (HP : 2 ^ 49 ≤ P) by (apply Z.pow_le_mono_r; lia).
  replace (2 ^ (1 - e)) with (2 * P)
    by (subst P; rewrite <- Z.pow_succ_r by lia; f_equal; lia).
  destruct (round_half_even_error (x * P) 100000) as [Hm Herr]; [lia|nia|].
  set (m := round_half_even (x * P) 100000) in *. clearbody m.
  change (2 ^ 49) with 562949953421312 in HP.
  assert (Hm1 : 0 < m) by nia.
  change (10 ^ Z.of_nat 5) with 100000.
  split.
  - replace (Z.abs (Z.sgn s * m)) with m by (subst x; lia).
    symmetry.
    apply (Z.div_unique_pos _ _ x (2 * (m * 100000) + P - 2 * P * x)); lia.
  - subst x. destruct (s <? 0) eqn:Es.
    + apply Z.ltb_lt in Es. apply Z.ltb_lt. rewrite Z.sgn_neg by lia. lia.
    + apply Z.ltb_ge in Es. apply Z.ltb_ge. rewrite Z.sgn_pos by lia. lia.
Qed.

(** The digits [toFixed(5)] works on, padded to six. *)
Lemma padded_decimal a :
  0 ≤ a < 1000000 →
  (zeros (6 - String.length (decimal a)) ++ decimal a)%string
  = String (digit_char (a / 100000)) (pad5 (a mod 100000)).
Proof.
  intros Ha. unfold pad5.
  replace (a mod 100000 / 10000 mod 10) with (a / 10000 mod 10) by divlia.
  replace (a mod 100000 / 1000 mod 10) with (a / 1000 mod 10) by divlia.
  replace (a mod 100000 / 100 mod 10) with (a / 100 mod 10) by divlia.
  replace (a mod 100000 / 10 mod 10) with (a / 10 mod 10) by divlia.
  replace (a mod 100000 mod 10) with (a mod 10) by divlia.
  destruct (decide (a < 10)) as [H1|H1].
  { rewrite decimal_small by divlia.
    replace (a / 100000) with 0 by divlia.
    replace (a / 10000 mod 10) with 0 by divlia.
    replace (a / 1000 mod 10) with 0 by divlia.
    replace (a / 100 mod 10) with 0 by divlia.
    replace (a / 10 mod 10) with 0 by divlia.
    replace (a mod 10) with a by divlia. reflexivity. }
  rewrite (decimal_step a) by lia.
  destruct (decide (a < 100)) as [H2|H2].
  { rewrite (decimal_small (a / 10)) by divlia.
    replace (a / 100000) with 0 by divlia.
    replace (a / 10000 mod 10) with 0 by divlia.
    replace (a / 1000 mod 10) with 0 by divlia.
    replace (a / 100 mod 10) with 0 by divlia.
    replace (a / 10 mod 10) with (a / 10) by divlia. reflexivity. }
  rewrite (decimal_step (a / 10)) by divlia.
  replace (a / 10 / 10) with (a / 100) by divlia.
  replace (a / 10 mod 10) with (a / 10 mod 10) by reflexivity.
  destruct (decide (a < 1000)) as [H3|H3].
  { rewrite (decimal_small (a / 100)) by divlia.
    replace (a / 100000) with 0 by divlia.
    replace (a / 10000 mod 10) with 0 by divlia.
    replace (a / 1000 mod 10) with 0 by divlia.
    replace (a / 100 mod 10) with (a / 100) by divlia. reflexivity. }
  rewrite (decimal_step (a / 100)) by divlia.
  replace (a / 100 / 10) with (a / 1000) by divlia.
  destruct (decide (a < 10000)) as [H4|H4].
  { rewrite (decimal_small (a / 1000)) by divlia.
    replace (a / 100000) with 0 by divlia.
    replace (a / 10000 mod 10) with 0 by divlia.
    replace (a / 1000 mod 10) with (a / 1000) by divlia. reflexivity. }
  rewrite (decimal_step (a / 1000)) by divlia.
  replace (a / 1000 / 10) with (a / 10000) by divlia.
  destruct (decide (a < 100000)) as [H5|H5].
  { rewrite (decimal_small (a / 10000)) by divlia.
    replace (a / 100000) with 0 by divlia.
    replace (a / 10000 mod 10) with (a / 10000) by divlia. reflexivity. }
  rewrite (decimal_step (a / 10000)) by divlia.
  replace (a / 10000 / 10) with (a / 100000) by divlia.
  rewrite (decimal_small (a / 100000)) by divlia. reflexivity.
Qed.

(** What [(s / 100000).toFixed(5)] prints for a field of at most six
    digits: a sign, one digit, the point and five digits. *)
Lemma toFixed_shape s :
  Z.abs s < 1000000 →
  toFixed 5 (js_div s 100000)
  = ((if (s <? 0)%Z then "-"%string else EmptyString)
     ++ String (digit_char (Z.abs s / 100000)%Z)
          (String "."%char (pad5 (Z.abs s mod 100000)%Z)))%string.
Proof.
  intros Hs. destruct (nearest_scaled_div_abs s Hs) as [Hn Hsign].
  unfold toFixed. rewrite Hn, Hsign.
  change (S 5) with 6%nat. rewrite padded_decimal by lia.
  destruct (s <? 0); reflexivity.
Qed.

Lemma fraction_digits_wide s :
  0 ≤ s < 1000000 →
  slice 2 (toFixed 5 (js_div s 100000)) = pad5 (s mod 100000).
Proof.
  intros Hs. rewrite toFixed_shape by lia.
  rewrite (proj2 (Z.ltb_ge s 0)) by lia. rewrite Z.abs_eq by lia. reflexivity.
Qed.

Lemma fraction_digits_negative s :
  -100000 < s < 0 →
  slice 2 (toFixed 5 (js_div s 100000)) = String "."%char (pad5 (- s)).
Proof.
  intros Hs. rewrite toFixed_shape by lia.
  rewrite (proj2 (Z.ltb_lt s 0)) by lia.
  replace (Z.abs s) with (- s) by lia.
  rewrite (Z.mod_small (- s)) by lia. reflexivity.
Qed.

(** X18. Outside the bounds nothing is refused: a service or event
    identifier of six digits silently loses its leading digit, so it gets
    the identifier of the field value reduced modulo 100000. *)
Theorem getProgramId_drops_sixth_digit (n s e : Z) :
  0 ≤ s < 1000000 → 0 ≤ e < 1000000 →
  Program.getProgramId n s e
  = Program.getProgramId n (s mod 100000) (e mod 100000).
Proof.
  intros Hs He. unfold Program.getProgramId.
  rewrite (fraction_digits_wide s), (fraction_digits_wide e) by done.
  rewrite (fraction_digits (s mod 100000)), (fraction_digits (e mod 100000))
    by (apply Z.mod_pos_bound; lia).
  reflexivity.
Qed.

(** Service 101024 gets the identifier of service 1024. *)
Lemma getProgramId_drops_sixth_digit_witness :
  Program.getProgramId 32736 101024 40085
  = Program.getProgramId 32736 (101024 mod 100000) (40085 mod 100000).
Proof. apply (getProgramId_drops_sixth_digit 32736 101024 40085); lia. Defined.

Lemma parseInt_stops_at_point n rest :
  0 ≤ n →
  parseInt (decimal n ++ String "."%char rest) = Num (to_double n).
Proof.
  intros Hn. destruct (decimal_parse n Hn) as [Hall Hparse].
  assert (Hnum : parse_digits (decimal n ++ String "."%char rest) None = Some n).
  { rewrite parse_digits_app, Hparse by exact Hall. reflexivity. }
  destruct (decimal n) as [|c r] eqn:Ed; [discriminate|].
  cbn [all_digits] in Hall. apply andb_true_iff in Hall as [Hc _].
  apply bool_decide_eq_true in Hc.
  change (String c r ++ String "."%char rest)%string
    with (String c (r ++ String "."%char rest)) in *.
  rewrite (parseInt_digits _ _ Hc), Hnum, Z.mul_1_l. reflexivity.
Qed.

(** X19. A negative field is not refused either: its fraction is printed
    with a sign, so the packed string has a point where digits are
    expected and [parseInt] stops there.  With a negative service
    identifier the result is the network identifier alone, whatever the
    event; with a negative event identifier it is network and service
    only. *)
Theorem getProgramId_negative_field (n s e : Z) :
  0 ≤ n ≤ 900718 →
  (-100000 < s < 0 → Program.getProgramId n s e = Num n) ∧
  (0 ≤ s < 100000 → -100000 < e < 0 →
   Program.getProgramId n s e = Num (n * 100000 + s)).
Proof.
  intros Hn. unfold Program.getProgramId, Number_toString.
  rewrite (proj2 (Z.ltb_ge n 0)) by lia. split.
  - intros Hs. rewrite (fraction_digits_negative s Hs).
    change (String "." (pad5 (- s)) ++ ?r)%string
      with (String "."%char (pad5 (- s) ++ r)).
    rewrite parseInt_stops_at_point by lia.
    rewrite to_double_exact; [reflexivity|].
    change (2 ^ 53) with 9007199254740992. lia.
  - intros Hs He. rewrite (fraction_digits s Hs), (fraction_digits_negative e He).
    destruct (decimal_parse n ltac:(lia)) as [Hall Hparse].
    destruct (pad5_parse s Hs) as [Halls Hparses].
    assert (Hnum : parse_digits (decimal n ++ pad5 s ++ String "."%char (pad5 (- e)))
                     None = Some (n * 100000 + s)).
    { rewrite parse_digits_app, Hparse by exact Hall.
      rewrite parse_digits_app, Hparses by exact Halls. reflexivity. }
    destruct (decimal n) as [|c r] eqn:Ed; [discriminate|].
    cbn [all_digits] in Hall. apply andb_true_iff in Hall as [Hc _].
    apply bool_decide_eq_true in Hc.
    change (String c r ++ ?t)%string with (String c (r ++ t)) in *.
    rewrite (parseInt_digits _ _ Hc), Hnum, Z.mul_1_l.
    rewrite to_double_exact; [reflexivity|].
    change (2 ^ 53) with 9007199254740992. lia.
Qed.

(** Service -1: the identifier is the network identifier. *)
Lemma getProgramId_negative_field_witness :
  Program.getProgramId 32736 (-1) 40085 = Num 32736 ∧
  Program.getProgramId 32736 1024 (-1) = Num (32736 * 100000 + 1024).
Proof.
  destruct (getProgramId_negative_field 32736 (-1) 40085 ltac:(lia)) as [H1 _].
  destruct (getProgramId_negative_field 32736 1024 (-1) ltac:(lia)) as [_ H2].
  split; [apply H1|apply H2]; lia.
Defined.

(** ** More on the store *)

(** X20. [remove] is idempotent on a store of distinct objects: removing
    the same entry twice in a row ends in the state the first [remove]
    ends in. *)
Theorem remove_twice (w : World) (e : ProgramItem.t) :
  distinct_objects (_items w) →
  (Program.remove e;; Program.remove e) w = Program.remove e w.
Proof.
  intros Hnd. destruct (indexOf (_items w) e) as [i|] eqn:E.
  - destruct (member_split e (_items w)) as (l1 & y & l2 & Hl & Hy & Hl1).
    { destruct (indexOf_Some _ _ _ E) as (y & Hy & Hr). exists y.
      split; [by eapply list_elem_of_lookup_2|done]. }
    destruct (remove_present e w l1 y l2 Hl Hy Hl1) as (w' & Hrun & Hi & _).
    rewrite (bind_run _ _ _ _ _ Hrun), Hrun.
    apply remove_absent. rewrite Hi.
    intros (x & [Hx|Hx]%elem_of_app & Href).
    + apply Hl1. by exists x.
    + rewrite Hl in Hnd. unfold distinct_objects in Hnd.
      rewrite fmap_app, fmap_cons in Hnd.
      apply NoDup_app in Hnd as (_ & _ & Hnd2).
      apply NoDup_cons in Hnd2 as [Hnot _]. apply Hnot.
      rewrite Hy, <- Href. by apply list_elem_of_fmap_2.
  - pose proof (remove_absent e w (proj1 (indexOf_None _ _) E)) as Hrun.
    rewrite (bind_run _ _ _ _ _ Hrun). reflexivity.
Qed.

(** Removing the first programme of the two-programme store twice. *)
Lemma remove_twice_witness :
  (Program.remove (sample_item 0 10 0 10);; Program.remove (sample_item 0 10 0 10))
    two_expired
  = Program.remove (sample_item 0 10 0 10) two_expired.
Proof.
  apply (remove_twice two_expired (sample_item 0 10 0 10)).
  unfold distinct_objects. compute_done.
Defined.

(** X21. An empty or inverted window finds nothing: when [end ≤ start],
    [findConflicts] returns the empty list, whatever the store holds. *)
Theorem findConflicts_empty_window (w : World)
    (networkId serviceId start end_ : Z) :
  end_ ≤ start →
  Program.findConflicts networkId serviceId start end_ w = Ok [] w.
Proof.
  intros Hle. rewrite findConflicts_run. f_equal.
  induction (_items w) as [|x l IH]; [reflexivity|].
  rewrite filter_cons_False; [exact IH|].
  intros (_ & _ & Hw). destruct (db.startAt (ProgramItem.data x)); [done..|lia].
Qed.

(** The window [2000, 1000) on the five sample programmes. *)
Lemma findConflicts_empty_window_witness :
  Program.findConflicts 1 2 2000 1000 window_store = Ok [] window_store.
Proof. apply (findConflicts_empty_window window_store 1 2 2000 1000). lia. Defined.

(** X22. Every conflict is an entry of the service asked for: what
    [findConflicts] returns is what [findByServiceId] returns for the same
    service, narrowed to the network and the window, in the same order. *)
Theorem findConflicts_within_service (w : World)
    (networkId serviceId start end_ : Z) :
  ∃ of_the_service,
    Program.findByServiceId serviceId w = Ok of_the_service w ∧
    Program.findConflicts networkId serviceId start end_ w
      = Ok (filter (in_window networkId serviceId start end_) of_the_service) w.
Proof.
  eexists. split; [apply findByServiceId_run|].
  rewrite findConflicts_run. f_equal.
  induction (_items w) as [|x l IH]; [reflexivity|].
  rewrite !filter_cons.
  destruct (decide (in_window networkId serviceId start end_ x)) as [Hin|Hout].
  - rewrite decide_True by (destruct Hin as (_ & Hs & _); exact Hs).
    rewrite filter_cons_True by exact Hin. by rewrite IH.
  - destruct (decide (of_service serviceId x)); [|exact IH].
    rewrite filter_cons_False by exact Hout. exact IH.
Qed.
